(** * luna-sysservice: the clock handler, backup paths and preference copies

    The main part is a shallow embedding of [Src/ClockHandler.cpp]: the registry
    [m_clocks] (a [std::map<std::string, Clock>]), the global flag
    [m_manualOverride], the operations [setup], [update], [adjust],
    [manualOverride] and the two bus handlers [cbSetTime] and [cbGetTime].

    Conventions of the embedding.
    - [time_t] is taken as a 64-bit signed [long] ([invalidOffset] is
      [LONG_MIN]); values are carried in [Z] and every addition or
      subtraction of the source is wrapped to that range by [time_t_wrap].
    - Each call of [time(0)] is an argument [now] of the operation that
      makes it.
    - [clockChanged.fire(...)] is rendered as the list of events an
      operation returns, in firing order.
    - Logging calls have no effect on the state and are left out.

    Two smaller parts follow the clock handler: the paths of the temporary
    backup database built and recognised by [Src/BackupManager.cpp], and
    [setPref], [getPref] and [copyKeys] of PrefsDb over a table whose SQL
    statements are parameters. *)

From Stdlib Require Import Ascii ZArith String List Lia.
From stdpp Require Import base decidable option list gmap strings fin_maps sorting.

Open Scope Z_scope.
Open Scope string_scope.

(** ** time_t *)

Definition LONG_MIN : Z := - 2 ^ 63.
Definition LONG_MAX : Z := 2 ^ 63 - 1.

Definition time_t_wrap (z : Z) : Z := (z + 2 ^ 63) mod 2 ^ 64 - 2 ^ 63.

Definition in_time_t (z : Z) : Prop := LONG_MIN <= z <= LONG_MAX.

(** ** Static members *)

Definition manual : string := "manual".
Definition micom : string := "micom".
Definition system : string := "system".
Definition invalidTime : Z := -1.
Definition invalidOffset : Z := LONG_MIN.

(** ** Data *)

(** [struct Clock { int priority; time_t systemOffset; time_t lastUpdate; }] *)
Record Clock : Type := mkClock {
  priority : Z;
  systemOffset : Z;
  lastUpdate : Z
}.

(** The two data members of the handler the operations read and write. *)
Record ClockHandler : Type := mkHandler {
  m_clocks : gmap string Clock;
  m_manualOverride : bool
}.

(** One delivery of the [clockChanged] signal:
    [fire(tag, priority, systemOffset, lastUpdate)]. *)
Inductive Event : Type :=
  clockChanged (tag : string) (prio : Z) (offset : Z) (stamp : Z).

#[global] Instance Clock_eq_dec : EqDecision Clock.
Proof. solve_decision. Defined.

#[global] Instance Event_eq_dec : EqDecision Event.
Proof. solve_decision. Defined.

(** The condition of the [assert] in [manualOverride], commented there as
    the "invariant of Clock". *)
Definition Clock_invariant (clock : Clock) : bool :=
  bool_decide (lastUpdate clock = invalidTime) ||
  negb (bool_decide (systemOffset clock = invalidOffset)).

Definition registry_invariant (h : ClockHandler) : Prop :=
  ∀ tag clock, m_clocks h !! tag = Some clock → Clock_invariant clock = true.

(** A source "has data" once its [lastUpdate] is set. *)
Definition has_data (h : ClockHandler) (tag : string) : bool :=
  match m_clocks h !! tag with
  | Some clock => negb (bool_decide (lastUpdate clock = invalidTime))
  | None => false
  end.

(** Every stored [time_t] lies in the range of the type. *)
Definition registry_in_range (h : ClockHandler) : Prop :=
  ∀ tag clock, m_clocks h !! tag = Some clock →
    in_time_t (systemOffset clock) ∧ in_time_t (lastUpdate clock).

(** ** Iteration order of [ClocksMap]

    [ClocksMap] is declared in ClockHandler.h; its use ([find], [insert] of
    a [value_type], iterators over pairs) is that of
    [std::map<std::string, Clock>], which is walked in increasing key
    order, [std::less<std::string>] being the byte-wise lexicographic
    order. *)

Definition tag_le (a b : string * Clock) : Prop := String.leb a.1 b.1 = true.

#[global] Instance tag_le_dec : RelDecision tag_le.
Proof. intros a b. unfold tag_le. apply _. Defined.

Definition clocks_in_order (m : gmap string Clock) : list (string * Clock) :=
  merge_sort tag_le (map_to_list m).

(** [m_clocks.find(tag)]: [None] is [m_clocks.end()], otherwise the pair
    the iterator points to. *)
Definition find (tag : string) (m : gmap string Clock) : option (string * Clock) :=
  (λ clock, (tag, clock)) <$> m !! tag.

(** ** Operations *)

(** [ClockHandler::adjust], the body of the loop for one entry. *)
Definition adjust_clock (offset : Z) (clock : Clock) : Clock :=
  if decide (systemOffset clock = invalidOffset) then clock
  else
    {| priority := priority clock;
       systemOffset := time_t_wrap (systemOffset clock - offset);
       lastUpdate :=
         if decide (lastUpdate clock ≠ invalidTime)
         then time_t_wrap (lastUpdate clock + offset)
         else lastUpdate clock |}.

(** [ClockHandler::adjust]: every entry is rewritten in place. *)
Definition adjust (offset : Z) (h : ClockHandler) : ClockHandler :=
  {| m_clocks := adjust_clock offset <$> m_clocks h;
     m_manualOverride := m_manualOverride h |}.

(** One round of the re-sending loop of [manualOverride] whose [assert]
    holds: the event fired, if the entry is not skipped. *)
Definition resend_one (entry : string * Clock) : option Event :=
  if decide (lastUpdate entry.2 = invalidTime) then None
  else Some (clockChanged entry.1 (priority entry.2)
                          (systemOffset entry.2) (lastUpdate entry.2)).

(** The events of a re-sending loop that runs to its end. *)
Definition resend (m : gmap string Clock) : list Event :=
  omap resend_one (clocks_in_order m).

(** The re-sending loop of [manualOverride], lines 103-120, over the
    entries in key order: the events it fires and whether it runs to its
    end. An entry without stamp is skipped; for the others the [assert] of
    lines 112-113 comes before the call of [fire], and where it fails the
    program aborts: that entry and the entries after it fire nothing. *)
Fixpoint resend_loop (entries : list (string * Clock)) : list Event * bool :=
  match entries with
  | [] => ([], true)
  | entry :: rest =>
      if decide (lastUpdate entry.2 = invalidTime) then resend_loop rest
      else if Clock_invariant entry.2 then
        (clockChanged entry.1 (priority entry.2)
                      (systemOffset entry.2) (lastUpdate entry.2)
         :: (resend_loop rest).1,
         (resend_loop rest).2)
      else ([], false)
  end.

(** [ClockHandler::manualOverride], lines 91-122: the handler as the call
    leaves it (the flag is written before the loop), the events fired, and
    whether the call returns ([true]) or the process is aborted by the
    failing [assert] of the loop ([false]); in that case the events are
    those fired before. *)
Definition manualOverride_run (enabled : bool) (h : ClockHandler)
  : ClockHandler * list Event * bool :=
  if bool_decide (m_manualOverride h = enabled) then (h, [], true)
  else
    let h' := {| m_clocks := m_clocks h; m_manualOverride := enabled |} in
    if negb enabled then
      (h', (resend_loop (clocks_in_order (m_clocks h))).1,
       (resend_loop (clocks_in_order (m_clocks h))).2)
    else (h', [], true).

(** The handler and the events of [manualOverride(enabled)]. *)
Definition manualOverride (enabled : bool) (h : ClockHandler)
  : ClockHandler * list Event :=
  (manualOverride_run enabled h).1.

(** Whether every [assert] met during [manualOverride(enabled)] holds, that
    is, whether the call returns. *)
Definition manualOverride_asserts (enabled : bool) (h : ClockHandler) : bool :=
  (manualOverride_run enabled h).2.

(** [ClockHandler::setup]; [offset] defaults to [invalidOffset]. *)
Definition setup (now : Z) (clockTag : string) (prio : Z) (offset : Z)
    (h : ClockHandler) : ClockHandler :=
  match m_clocks h !! clockTag with
  | Some clock =>
      let clock' :=
        if decide (offset ≠ invalidOffset)
        then {| priority := prio; systemOffset := offset; lastUpdate := now |}
        else {| priority := prio; systemOffset := systemOffset clock;
                lastUpdate := lastUpdate clock |} in
      {| m_clocks := <[clockTag := clock']> (m_clocks h);
         m_manualOverride := m_manualOverride h |}
  | None =>
      {| m_clocks :=
           <[clockTag := {| priority := prio; systemOffset := offset;
                            lastUpdate := invalidTime |}]> (m_clocks h);
         m_manualOverride := m_manualOverride h |}
  end.

(** The constructor: the flag is off and "manual" is registered with
    priority 0. [setup] does not read the time on that path. *)
Definition ClockHandler_new : ClockHandler :=
  setup 0 manual 0 invalidOffset {| m_clocks := ∅; m_manualOverride := false |}.

(** The tail of [update]: the entry is overwritten and the signal fired. *)
Definition accept_update (offset : Z) (clockTag : string) (timeStamp : Z)
    (clock : Clock) (h : ClockHandler) : bool * ClockHandler * list Event :=
  let clock' := {| priority := priority clock; systemOffset := offset;
                   lastUpdate := timeStamp |} in
  (true,
   {| m_clocks := <[clockTag := clock']> (m_clocks h);
      m_manualOverride := m_manualOverride h |},
   [clockChanged clockTag (priority clock') offset (lastUpdate clock')]).

(** [ClockHandler::update]; [timeStamp] defaults to [invalidTime]. *)
Definition update (now : Z) (offset : Z) (clockTag : string) (timeStamp : Z)
    (h : ClockHandler) : bool * ClockHandler * list Event :=
  match m_clocks h !! clockTag with
  | None => (false, h, [])
  | Some clock =>
      let prevTimeStamp := lastUpdate clock in
      if decide (timeStamp = invalidTime) then
        accept_update offset clockTag now clock h
      else if decide (prevTimeStamp ≠ invalidTime ∧ prevTimeStamp >= timeStamp)
      then (true, h, [])
      else accept_update offset clockTag timeStamp clock h
  end.

(** ** Bus handlers *)

(** The reply of [/clock/setTime]: [{"returnValue": b}]. *)
Definition SetTimeReply : Type := bool.

(** [ClockHandler::cbSetTime] on a request that passed schema validation:
    [source] (default "manual") and [utc]. [now] is the reading of
    [time(0)] in the handler, [now'] the one inside [update]. *)
Definition cbSetTime (now now' : Z) (source : string) (utcInteger : Z)
    (h : ClockHandler) : SetTimeReply * ClockHandler * list Event :=
  let systemOffset := time_t_wrap (utcInteger - now) in
  update now' systemOffset source invalidTime h.

(** The reply object of [/clock/getTime], one field per JSON key the
    handler may put; [offset_value] and [offset_source] are the two keys of
    the nested "offset" object. *)
Record Reply : Type := mkReply {
  returnValue : bool;
  errorText : option string;
  reply_source : option string;
  offset_value : option Z;
  offset_source : option string;
  utc : option Z;
  systemTimeSource : option string;
  reply_priority : option Z
}.

#[global] Instance Reply_eq_dec : EqDecision Reply.
Proof. solve_decision. Defined.

(** The local variables of [cbGetTime] that the source selection works on. *)
Record Locals : Type := mkLocals {
  source : string;
  isSystem : bool;
  haveFallback : bool;
  it : option (string * Clock)
}.

Definition it_unset (it : option (string * Clock)) : bool :=
  match it with
  | None => true
  | Some (_, clock) => bool_decide (systemOffset clock = invalidOffset)
  end.

(** Lines 288-289 and 281-282: the variables as parsed. *)
Definition parsed (src : string) (fallback : option string) : Locals :=
  {| source := src;
     isSystem := bool_decide (src = system);
     haveFallback := bool_decide (is_Some fallback);
     it := None |}.

(** Lines 291-308: override by the manual clock. *)
Definition override_stage (wantOverride : bool) (h : ClockHandler)
    (l : Locals) : Locals :=
  if wantOverride && m_manualOverride h then
    match find manual (m_clocks h) with
    | Some (tag, clock) =>
        if decide (systemOffset clock ≠ invalidOffset)
        then {| source := manual; isSystem := false; haveFallback := false;
                it := Some (tag, clock) |}
        else {| source := source l; isSystem := isSystem l;
                haveFallback := haveFallback l; it := None |}
    | None => {| source := source l; isSystem := isSystem l;
                 haveFallback := haveFallback l; it := None |}
    end
  else l.

(** Lines 310-314: find the requested clock unless overridden. *)
Definition find_stage (h : ClockHandler) (l : Locals) : Locals :=
  match it l with
  | None => {| source := source l; isSystem := isSystem l;
               haveFallback := haveFallback l;
               it := find (source l) (m_clocks h) |}
  | Some _ => l
  end.

(** Lines 316-325: the fallback logic. [fallback] is the string the parser
    filled in (empty when the key is absent). *)
Definition fallback_stage (fallback : string) (h : ClockHandler)
    (l : Locals) : Locals :=
  if haveFallback l && it_unset (it l) && negb (isSystem l) then
    {| source := fallback;
       isSystem := bool_decide (fallback = system);
       haveFallback := haveFallback l;
       it := find fallback (m_clocks h) |}
  else l.

(** Modelled from the spec: [createJsonReply] is defined in JSONUtils, which
    is not among the sources. By section 6 of the spec a reply starts with
    [returnValue] and, on error, carries [errorText]. *)
Definition createJsonReply (success : bool) (text : option string) : Reply :=
  {| returnValue := success; errorText := text;
     reply_source := None; offset_value := None; offset_source := None;
     utc := None; systemTimeSource := None; reply_priority := None |}.

(** The four replies of lines 327-364. [sysSource] stands for
    [TimePrefsHandler::instance()->getSystemTimeSource()]. *)
Definition reply_system (now : Z) (sysSource : string) : Reply :=
  {| returnValue := returnValue (createJsonReply true None);
     errorText := errorText (createJsonReply true None);
     reply_source := Some system;
     offset_value := Some 0; offset_source := Some system;
     utc := Some now;
     systemTimeSource := Some sysSource;
     reply_priority := None |}.

Definition reply_not_registered (src : string) : Reply :=
  {| returnValue :=
       returnValue (createJsonReply false (Some "Requested clock is not registered"));
     errorText :=
       errorText (createJsonReply false (Some "Requested clock is not registered"));
     reply_source := Some src;
     offset_value := None; offset_source := None; utc := None;
     systemTimeSource := None; reply_priority := None |}.

Definition reply_no_time (tag : string) (clock : Clock) : Reply :=
  {| returnValue :=
       returnValue (createJsonReply false (Some "No time available for that clock"));
     errorText :=
       errorText (createJsonReply false (Some "No time available for that clock"));
     reply_source := Some tag;
     offset_value := None; offset_source := None; utc := None;
     systemTimeSource := None;
     reply_priority := Some (priority clock) |}.

Definition reply_clock (now : Z) (tag : string) (clock : Clock) : Reply :=
  {| returnValue := returnValue (createJsonReply true None);
     errorText := errorText (createJsonReply true None);
     reply_source := Some tag;
     offset_value := Some (systemOffset clock);
     offset_source := Some system;
     utc := Some (time_t_wrap (now + systemOffset clock));
     systemTimeSource := None;
     reply_priority := Some (priority clock) |}.

(** Lines 327-364: which reply is sent. *)
Definition make_reply (now : Z) (sysSource : string) (l : Locals) : Reply :=
  if isSystem l then reply_system now sysSource
  else
    match it l with
    | None => reply_not_registered (source l)
    | Some (tag, clock) =>
        if decide (systemOffset clock = invalidOffset)
        then reply_no_time tag clock
        else reply_clock now tag clock
    end.

(** [ClockHandler::cbGetTime] on a request that passed schema validation:
    [src] (default "system"), [wantOverride] (default false) and the
    optional [fallback]. The handler does not write to the registry. *)
Definition cbGetTime (now : Z) (sysSource : string) (src : string)
    (wantOverride : bool) (fallback : option string) (h : ClockHandler)
  : Reply :=
  make_reply now sysSource
    (fallback_stage (default "" fallback) h
       (find_stage h (override_stage wantOverride h (parsed src fallback)))).

(** ** Call sequences *)

(** The calls a client of the handler can make. *)
Inductive Call : Type :=
| CallSetup (clockTag : string) (prio : Z) (offset : Z)
| CallUpdate (offset : Z) (clockTag : string) (timeStamp : Z)
| CallAdjust (offset : Z)
| CallManualOverride (enabled : bool)
| CallSetTime (source : string) (utcInteger : Z) (now' : Z)
| CallGetTime (sysSource : string) (src : string) (wantOverride : bool)
              (fallback : option string).

(** One call, made when [time(0)] reads [now]: the state it leaves and the
    events it fires. [setTime] reads the time twice, [now'] being the
    second reading. *)
Definition step (now : Z) (c : Call) (h : ClockHandler)
  : ClockHandler * list Event :=
  match c with
  | CallSetup tag prio offset => (setup now tag prio offset h, [])
  | CallUpdate offset tag timeStamp =>
      let r := update now offset tag timeStamp h in (r.1.2, r.2)
  | CallAdjust offset => (adjust offset h, [])
  | CallManualOverride enabled => manualOverride enabled h
  | CallSetTime src utcInteger now' =>
      let r := cbSetTime now now' src utcInteger h in (r.1.2, r.2)
  | CallGetTime _ _ _ _ => (h, [])
  end.

(** A sequence of timed calls, run from left to right. *)
Fixpoint run (calls : list (Z * Call)) (h : ClockHandler) : ClockHandler :=
  match calls with
  | [] => h
  | (now, c) :: rest => run rest (step now c h).1
  end.

(** The call ends in [ClockHandler::update]. *)
Definition is_update (c : Call) : bool :=
  match c with
  | CallUpdate _ _ _ | CallSetTime _ _ _ => true
  | _ => false
  end.

(** ** Predicates on calls *)

(** The call is [setup] for the given tag. *)
Definition registers (tag : string) (c : Call) : bool :=
  match c with
  | CallSetup t _ _ => bool_decide (t = tag)
  | _ => false
  end.

(** The call is none of those after which the invariant may be lost: an
    update that carries [invalidOffset] as its offset, and a step of the
    time base that moves a valid offset onto [invalidOffset]. *)
Definition offset_safe (now : Z) (c : Call) (h : ClockHandler) : Prop :=
  match c with
  | CallUpdate offset _ _ => offset ≠ invalidOffset
  | CallSetTime _ utcInteger _ =>
      time_t_wrap (utcInteger - now) ≠ invalidOffset
  | CallAdjust d =>
      ∀ tag clock, m_clocks h !! tag = Some clock →
        systemOffset clock ≠ invalidOffset →
        time_t_wrap (systemOffset clock - d) ≠ invalidOffset
  | _ => True
  end.

(** The arguments of the call are values of [time_t]. *)
Definition call_in_range (now : Z) (c : Call) : Prop :=
  in_time_t now ∧
  match c with
  | CallSetup _ _ offset => in_time_t offset
  | CallUpdate offset _ timeStamp => in_time_t offset ∧ in_time_t timeStamp
  | CallSetTime _ _ now' => in_time_t now'
  | _ => True
  end.

(** ** Events *)

(** The tag an event carries. *)
Definition event_tag (e : Event) : string :=
  match e with clockChanged tag _ _ _ => tag end.

#[global] Instance tag_le_total : Total tag_le.
Proof. intros a b. unfold tag_le. apply String.leb_total. Qed.

(** ** Sample states *)

(** The fresh handler with the global flag switched on. *)
Definition h_override_on : ClockHandler := (manualOverride true ClockHandler_new).1.

(** "manual" updated once: offset 1, stamped 100. *)
Definition h_stamped : ClockHandler := (update 0 1 manual 100 ClockHandler_new).1.2.

(** The flag on and "manual" carrying offset 5, stamped 100. *)
Definition h_manual5 : ClockHandler := (update 100 5 manual invalidTime h_override_on).1.2.

(** "manual" updated once with offset 0 and stamp 4. *)
Definition h_stamp4 : ClockHandler := (update 0 0 manual 4 ClockHandler_new).1.2.

(** "manual" updated once with [invalidOffset] passed as the offset. *)
Definition h_sentinel_offset : ClockHandler :=
  (update 0 invalidOffset manual 100 ClockHandler_new).1.2.


(** "manual" updated once with the smallest valid offset. *)
Definition h_low_offset : ClockHandler :=
  (update 0 (LONG_MIN + 1) manual 100 ClockHandler_new).1.2.

(** ** The order of resolution of getTime, as a decision list *)

(** The clock is registered and has an offset. *)
Definition clock_valid (h : ClockHandler) (tag : string) : bool :=
  negb (it_unset (find tag (m_clocks h))).

(** The source can answer a request: it is "system" or a valid clock. *)
Definition usable (h : ClockHandler) (s : string) : bool :=
  bool_decide (s = system) || clock_valid h s.

(** The reply for a registry tag taken on its own. *)
Definition clock_reply (now : Z) (tag : string) (h : ClockHandler) : Reply :=
  match m_clocks h !! tag with
  | None => reply_not_registered tag
  | Some clock =>
      if decide (systemOffset clock = invalidOffset)
      then reply_no_time tag clock
      else reply_clock now tag clock
  end.

(** The reply for a source taken on its own, without override or fallback. *)
Definition plain_reply (now : Z) (sysSource : string) (h : ClockHandler)
    (s : string) : Reply :=
  if bool_decide (s = system) then reply_system now sysSource
  else clock_reply now s h.

(** The source that answers: "manual" when the override applies, else the
    requested source when it is usable, else the fallback when there is
    one, else the requested source. *)
Definition resolved_source (src : string) (wantOverride : bool)
    (fallback : option string) (h : ClockHandler) : string :=
  if wantOverride && m_manualOverride h && clock_valid h manual then manual
  else if usable h src then src
  else default src fallback.

(** ** Sequences of timed updates of one clock *)

(** Updates of [tag], each a triple (process time, offset, timestamp). *)
Definition updates_of (tag : string) (l : list (Z * Z * Z)) : list (Z * Call) :=
  (λ u, (u.1.1, CallUpdate u.1.2 tag u.2)) <$> l.

(** The timestamps are explicit and increase strictly, starting above
    [prev] when [prev] is a valid stamp. *)
Fixpoint ascending (prev : Z) (l : list (Z * Z * Z)) : Prop :=
  match l with
  | [] => True
  | u :: rest =>
      u.2 ≠ invalidTime ∧ (prev = invalidTime ∨ prev < u.2) ∧ ascending u.2 rest
  end.

(** ** What a call names *)

(** The tag a call writes to, if any. *)
Definition call_tag (c : Call) : option string :=
  match c with
  | CallSetup t _ _ | CallUpdate _ t _ | CallSetTime t _ _ => Some t
  | _ => None
  end.

Definition is_setup (c : Call) : bool :=
  match c with CallSetup _ _ _ => true | _ => false end.

Definition is_adjust (c : Call) : bool :=
  match c with CallAdjust _ => true | _ => false end.

Definition is_override (c : Call) : bool :=
  match c with CallManualOverride _ => true | _ => false end.

(** The call cannot take the stamp of [tag] onto [invalidTime]: the time
    it stamps with is not [(time_t)-1], the value [time] returns on
    failure, and a step of the time base does not move the stamp there. *)
Definition stamp_safe (now : Z) (c : Call) (h : ClockHandler) (tag : string)
  : Prop :=
  match c with
  | CallSetup _ _ _ | CallUpdate _ _ _ => now ≠ invalidTime
  | CallSetTime _ _ now' => now' ≠ invalidTime
  | CallAdjust d =>
      ∀ clock, m_clocks h !! tag = Some clock →
        time_t_wrap (lastUpdate clock + d) ≠ invalidTime
  | _ => True
  end.

(** ** Sequences of calls away from the unset values *)

(** Every call of the sequence is [offset_safe] in the state it is made
    in, starting from [h]. *)
Fixpoint offsets_safe (calls : list (Z * Call)) (h : ClockHandler) : Prop :=
  match calls with
  | [] => True
  | (now, c) :: rest =>
      offset_safe now c h ∧ offsets_safe rest (step now c h).1
  end.

(** * BackupManager: the paths of the temporary backup database

    From [Src/BackupManager.cpp]: the path at which [preBackupCallback]
    creates the temporary database, and the paths that
    [postRestoreCallback] hands to [PrefsDb::merge]. Strings are
    [std::string]s; the JSON values are taken as parsed. *)

(** [PrefsDb::s_tempBackupDbFilenameOnly]. *)
Definition s_tempBackupDbFilenameOnly : string := "systemprefs_backup.db".

(** [*s.rbegin()], for a string that is not empty. *)
Fixpoint last_char (s : string) : option ascii :=
  match s with
  | EmptyString => None
  | String c EmptyString => Some c
  | String _ rest => last_char rest
  end.

(** [s[0]]. *)
Definition first_char (s : string) : option ascii :=
  match s with
  | EmptyString => None
  | String c _ => Some c
  end.

(** [hay.find(needle) != std::string::npos]: the needle starts at some
    position of the string. *)
Fixpoint contains (needle hay : string) : bool :=
  String.prefix needle hay ||
  match hay with
  | EmptyString => false
  | String _ rest => contains needle rest
  end.

(** [preBackupCallback], lines 305-308: the file of the temporary database
    in [tempDir]. *)
Definition backup_dbfile (tempDir : string) : string :=
  let dbfile := tempDir in
  let dbfile :=
    if bool_decide (dbfile = "") || negb (bool_decide (last_char dbfile = Some "/"%char))
    then dbfile +:+ "/"
    else dbfile in
  dbfile +:+ s_tempBackupDbFilenameOnly.

(** One round of the loop of [postRestoreCallback], lines 488-533, on an
    element of the "files" array: [None] is an element for which
    [array_list_get_idx] gives no object, [Some path] the string of the
    element. The result is the path passed to [PrefsDb::merge], if the
    round reaches that call. *)
Definition restore_entry (tempDir : string) (entry : option string)
  : option string :=
  match entry with
  | None => None
  | Some path =>
      if bool_decide (path = "") then None
      else
        let path :=
          if negb (bool_decide (first_char path = Some "/"%char))
          then tempDir +:+ "/" +:+ path
          else path in
        if contains "systemprefs_backup.db" path then Some path else None
  end.

(** The paths merged by [postRestoreCallback], in the order of the calls. *)
Definition postRestore_merged (tempDir : string) (files : list (option string))
  : list string :=
  omap (restore_entry tempDir) files.

(** The path is absolute. *)
Definition absolute (path : string) : bool :=
  bool_decide (first_char path = Some "/"%char).

(** * PrefsDb: copying preferences between databases

    [PrefsDb::setPref], the two [PrefsDb::getPref] and [PrefsDb::copyKeys].
    SQLite is not part of the sources; the two statements these functions
    run on the table [Preferences] are parameters of the model:
    - [insert_row db key value] is [sqlite3_exec] of
      "INSERT INTO Preferences VALUES (%Q, %Q)" on the connection state
      [db]: the new state, or [None] when the call returns an error (which
      also stands for [sqlite3_mprintf] returning no string);
    - [select_value db key] is [sqlite3_prepare], [sqlite3_step] and
      [sqlite3_column_text] of "SELECT value FROM Preferences WHERE
      key=%Q": the text of the first row, or [None] when a call fails,
      there is no row or the value is NULL.
    An object is its connection, [None] for the null [m_prefsDb] of a
    database that failed to open. In [copyKeys] the two objects are
    connections to different database files. *)

Record PrefsDb (Db : Type) : Type := mkPrefsDb {
  m_prefsDb : option Db;
  m_dbFilename : string
}.

Arguments mkPrefsDb {Db}.
Arguments m_prefsDb {Db}.
Arguments m_dbFilename {Db}.

(** [p_sourceDb]: a null pointer, [this], or another object. *)
Inductive SourceDb (Db : Type) : Type :=
| NullDb
| ThisDb
| OtherDb (source : PrefsDb Db).

Arguments NullDb {Db}.
Arguments ThisDb {Db}.
Arguments OtherDb {Db}.

(** [s.c_str()] as read by the C functions: the characters before the
    first NUL. *)
Fixpoint c_str (s : string) : string :=
  match s with
  | EmptyString => EmptyString
  | String c rest =>
      if bool_decide (c = "000"%char) then EmptyString
      else String c (c_str rest)
  end.

Section PrefsDbOperations.
Context {Db : Type}.
Variable insert_row : Db → string → string → option Db.
Variable select_value : Db → string → option string.

(** [PrefsDb::setPref]: the value returned and the object afterwards. *)
Definition setPref (key value : string) (this : PrefsDb Db)
  : bool * PrefsDb Db :=
  match m_prefsDb this with
  | None => (false, this)
  | Some db =>
      if bool_decide (key = "") then (false, this)
      else
        match insert_row db (c_str key) (c_str value) with
        | None => (false, this)
        | Some db' =>
            (true, {| m_prefsDb := Some db';
                      m_dbFilename := m_dbFilename this |})
        end
  end.

(** [bool PrefsDb::getPref(key, r_val)]: [Some] of what is written to
    [r_val] when the function returns [true], [None] when it returns
    [false]. The text of the column is read as a C string. *)
Definition getPref_value (key : string) (this : PrefsDb Db) : option string :=
  match m_prefsDb this with
  | None => None
  | Some db =>
      if bool_decide (key = "") then None
      else c_str <$> select_value db (c_str key)
  end.

(** [std::string PrefsDb::getPref(key)]. *)
Definition getPref (key : string) (this : PrefsDb Db) : string :=
  match m_prefsDb this with
  | None => ""
  | Some db =>
      if bool_decide (key = "") then ""
      else default "" (c_str <$> select_value db (c_str key))
  end.

(** One round of the loop of [copyKeys]: the count [n] and [this]. *)
Definition copyKeys_round (source : PrefsDb Db) (overwriteSameKeys : bool)
    (acc : Z * PrefsDb Db) (key : string) : Z * PrefsDb Db :=
  match getPref_value key source with
  | Some val =>
      if negb (bool_decide (is_Some (getPref_value key acc.2)))
         || overwriteSameKeys
      then (acc.1 + 1, (setPref key val acc.2).2)
      else acc
  | None => acc
  end.

(** [PrefsDb::copyKeys]: the count returned and [this] afterwards. The
    count is an [int]; it is at most the number of keys. *)
Definition copyKeys (p_sourceDb : SourceDb Db) (keys : list string)
    (overwriteSameKeys : bool) (this : PrefsDb Db) : Z * PrefsDb Db :=
  match p_sourceDb with
  | NullDb | ThisDb => (0, this)
  | OtherDb source =>
      if bool_decide (keys = []) then (0, this)
      else
        match m_prefsDb source with
        | None => (0, this)
        | Some _ => foldl (copyKeys_round source overwriteSameKeys) (0, this) keys
        end
  end.

(** The value the table of an object holds for a key of the table. *)
Definition stored (this : PrefsDb Db) (k : string) : option string :=
  match m_prefsDb this with
  | None => None
  | Some db => select_value db k
  end.

(** The value [v] of the key [k] comes from the source, for one of the keys
    listed. *)
Definition copied_from (source : PrefsDb Db) (keys : list string)
    (k : string) (v : option string) : Prop :=
  ∃ key val, key ∈ keys ∧ key ≠ "" ∧ c_str key = k
             ∧ stored source k = Some val ∧ v = Some (c_str val).
End PrefsDbOperations.

(** A table kept in memory, key to value, on which an insert replaces the
    row of its key and never fails. *)
Definition table_insert (db : gmap string string) (key value : string)
  : option (gmap string string) :=
  Some (<[key := value]> db).

Definition table_select (db : gmap string string) (key : string)
  : option string :=
  db !! key.

(** The main database of the examples, and an empty backup database. *)
Definition main_db : PrefsDb (gmap string string) :=
  {| m_prefsDb := Some (<["locale" := "en_us"]>
                          (<["databaseVersion" := "1.0"]> ∅));
     m_dbFilename := "/var/luna/preferences/systemprefs.db" |}.

Definition backup_db : PrefsDb (gmap string string) :=
  {| m_prefsDb := Some (<["locale" := "fr_fr"]> ∅);
     m_dbFilename := "/tmp/backup/systemprefs_backup.db" |}.

(** * Properties *)

(** Case analysis on a call, [step] unfolded to the operation called. *)
Ltac call_cases c :=
  destruct c as [t p o|offset t ts|d|enabled|src utcv now'|sys src want fb];
  cbn [step fst cbSetTime] in *.

(** ** Basic facts *)

Lemma resend_loop_asserts (l : list (string * Clock)) :
  (resend_loop l).2
  = forallb (λ entry, bool_decide (lastUpdate entry.2 = invalidTime)
                      || Clock_invariant entry.2) l.
Proof.
  induction l as [|[tag clock] l IH]; simpl; [done|].
  destruct (decide (lastUpdate clock = invalidTime)) as [Hu|Hv].
  - by rewrite (bool_decide_eq_true_2 _ Hu).
  - rewrite (bool_decide_eq_false_2 _ Hv). simpl.
    by destruct (Clock_invariant clock).
Qed.

Lemma manualOverride_unfold enabled h :
  manualOverride enabled h
  = if bool_decide (m_manualOverride h = enabled) then (h, [])
    else if negb enabled then
      ({| m_clocks := m_clocks h; m_manualOverride := enabled |},
       (resend_loop (clocks_in_order (m_clocks h))).1)
    else ({| m_clocks := m_clocks h; m_manualOverride := enabled |}, []).
Proof.
  unfold manualOverride, manualOverride_run.
  case_bool_decide; [done|]. by destruct enabled.
Qed.

Lemma manualOverride_asserts_unfold enabled h :
  manualOverride_asserts enabled h
  = if bool_decide (m_manualOverride h = enabled) then true
    else if negb enabled then
      forallb (λ entry, bool_decide (lastUpdate entry.2 = invalidTime)
                        || Clock_invariant entry.2)
              (clocks_in_order (m_clocks h))
    else true.
Proof.
  unfold manualOverride_asserts, manualOverride_run.
  case_bool_decide; [done|]. destruct enabled; [done|].
  simpl. apply resend_loop_asserts.
Qed.

Lemma manual_not_system : manual ≠ system.
Proof. discriminate. Qed.

Lemma micom_not_system : micom ≠ system.
Proof. discriminate. Qed.

Lemma invalidTime_in_range : in_time_t invalidTime.
Proof. unfold in_time_t, invalidTime, LONG_MIN, LONG_MAX. lia. Qed.

Lemma time_t_wrap_in_range z : in_time_t (time_t_wrap z).
Proof.
  unfold in_time_t, time_t_wrap, LONG_MIN, LONG_MAX.
  pose proof (Z.mod_pos_bound (z + 2 ^ 63) (2 ^ 64)). lia.
Qed.

Lemma time_t_wrap_id z : in_time_t z → time_t_wrap z = z.
Proof.
  unfold in_time_t, time_t_wrap, LONG_MIN, LONG_MAX. intros Hz.
  rewrite Z.mod_small by lia. lia.
Qed.

Lemma time_t_wrap_period z k : time_t_wrap (z + k * 2 ^ 64) = time_t_wrap z.
Proof.
  unfold time_t_wrap.
  replace (z + k * 2 ^ 64 + 2 ^ 63) with (z + 2 ^ 63 + k * 2 ^ 64) by lia.
  by rewrite Z_mod_plus_full.
Qed.

Lemma time_t_wrap_repr z : ∃ k, time_t_wrap z = z + k * 2 ^ 64.
Proof.
  exists (- ((z + 2 ^ 63) / 2 ^ 64)). unfold time_t_wrap.
  rewrite Z.mod_eq by lia. lia.
Qed.

(** Subtracting a delta and then its negation gives the value back. *)
Lemma time_t_sub_neg x d :
  in_time_t x →
  time_t_wrap (time_t_wrap (x - d) - time_t_wrap (- d)) = x.
Proof.
  intros Hx.
  destruct (time_t_wrap_repr (x - d)) as [k1 ->].
  destruct (time_t_wrap_repr (- d)) as [k2 ->].
  replace (x - d + k1 * 2 ^ 64 - (- d + k2 * 2 ^ 64))
    with (x + (k1 - k2) * 2 ^ 64) by lia.
  rewrite time_t_wrap_period. by apply time_t_wrap_id.
Qed.

Lemma time_t_add_neg x d :
  in_time_t x →
  time_t_wrap (time_t_wrap (x + d) + time_t_wrap (- d)) = x.
Proof.
  intros Hx.
  destruct (time_t_wrap_repr (x + d)) as [k1 ->].
  destruct (time_t_wrap_repr (- d)) as [k2 ->].
  replace (x + d + k1 * 2 ^ 64 + (- d + k2 * 2 ^ 64))
    with (x + (k1 + k2) * 2 ^ 64) by lia.
  rewrite time_t_wrap_period. by apply time_t_wrap_id.
Qed.

Lemma find_Some tag m clock :
  m !! tag = Some clock → find tag m = Some (tag, clock).
Proof. unfold find. by intros ->. Qed.

Lemma find_None tag m : m !! tag = None → find tag m = None.
Proof. unfold find. by intros ->. Qed.

Lemma ClockHandler_new_clocks :
  m_clocks ClockHandler_new
  = {[ manual := {| priority := 0; systemOffset := invalidOffset;
                    lastUpdate := invalidTime |} ]}.
Proof. reflexivity. Qed.

(** ** cbGetTime: override by the manual clock *)

Lemma override_stage_forced h l clock :
  m_manualOverride h = true →
  m_clocks h !! manual = Some clock →
  systemOffset clock ≠ invalidOffset →
  override_stage true h l
  = {| source := manual; isSystem := false; haveFallback := false;
       it := Some (manual, clock) |}.
Proof.
  intros Hflag Hman Hoff. unfold override_stage.
  rewrite Hflag, (find_Some _ _ _ Hman). simpl.
  by destruct (decide (systemOffset clock ≠ invalidOffset)).
Qed.

Lemma override_stage_not_forced want h src fb :
  (∀ clock, m_clocks h !! manual = Some clock →
            systemOffset clock = invalidOffset) →
  override_stage want h (parsed src fb) = parsed src fb.
Proof.
  intros Hman. unfold override_stage.
  destruct (want && m_manualOverride h); [|done].
  unfold find. destruct (m_clocks h !! manual) as [clock|] eqn:E; simpl; [|done].
  destruct (decide (systemOffset clock ≠ invalidOffset)) as [Hne|_]; [|done].
  by destruct Hne; apply Hman.
Qed.

Lemma cbGetTime_forced h now sys src fb clock :
  m_manualOverride h = true →
  m_clocks h !! manual = Some clock →
  systemOffset clock ≠ invalidOffset →
  cbGetTime now sys src true fb h = reply_clock now manual clock.
Proof.
  intros Hflag Hman Hoff. unfold cbGetTime.
  rewrite (override_stage_forced h _ clock) by done.
  unfold find_stage, fallback_stage, make_reply. simpl.
  by destruct (decide (systemOffset clock = invalidOffset)).
Qed.

Lemma update_sentinel_stamp now offset tag h clock :
  m_clocks h !! tag = Some clock →
  update now offset tag invalidTime h = accept_update offset tag now clock h.
Proof. intros Hc. unfold update. by rewrite Hc. Qed.

(** C1. With [manualOverride] requested and the global flag on: if the
    "manual" clock has a valid offset the source is forced to "manual"
    ([isSystem] false, fallback switched off, reply labelled "manual");
    if it has none, nothing is forced and the call behaves as for the
    requested source. After [manualOverride(true)] and
    [update(5, "manual")], [getTime] for the unregistered "micom" with the
    override requested succeeds with source "manual". *)
Theorem C1_manual_override_forces_manual :
  (∀ h now sys src fb clock,
     m_manualOverride h = true →
     m_clocks h !! manual = Some clock →
     systemOffset clock ≠ invalidOffset →
     override_stage true h (parsed src fb)
     = {| source := manual; isSystem := false; haveFallback := false;
          it := Some (manual, clock) |}
     ∧ cbGetTime now sys src true fb h = reply_clock now manual clock)
  ∧ (∀ h now sys src fb,
     m_manualOverride h = true →
     (∀ clock, m_clocks h !! manual = Some clock →
               systemOffset clock = invalidOffset) →
     override_stage true h (parsed src fb) = parsed src fb
     ∧ cbGetTime now sys src true fb h = cbGetTime now sys src false fb h)
  ∧ (∀ h now' now sys fb,
     is_Some (m_clocks h !! manual) →
     m_clocks h !! micom = None →
     let h' := (update now' 5 manual invalidTime
                  (manualOverride true h).1).1.2 in
     m_clocks h' !! micom = None
     ∧ ∃ clock, cbGetTime now sys micom true fb h' = reply_clock now manual clock
                ∧ systemOffset clock = 5
                ∧ returnValue (cbGetTime now sys micom true fb h') = true
                ∧ reply_source (cbGetTime now sys micom true fb h')
                  = Some manual).
Proof.
  split; [|split].
  - intros h now sys src fb clock Hflag Hman Hoff. split.
    + by apply override_stage_forced.
    + by apply cbGetTime_forced.
  - intros h now sys src fb _ Hman. split.
    + by apply override_stage_not_forced.
    + unfold cbGetTime.
      by rewrite !override_stage_not_forced.
  - intros h now' now sys fb [c0 Hc0] Hmicom h'.
    assert (Hflag : m_manualOverride (manualOverride true h).1 = true).
    { rewrite manualOverride_unfold. case_bool_decide as Hb; simpl; done. }
    assert (Hclk : m_clocks (manualOverride true h).1 = m_clocks h).
    { rewrite manualOverride_unfold. case_bool_decide; done. }
    assert (Hc0' : m_clocks (manualOverride true h).1 !! manual = Some c0)
      by (by rewrite Hclk).
    subst h'. rewrite (update_sentinel_stamp _ _ _ _ _ Hc0').
    unfold accept_update. simpl. split.
    + rewrite lookup_insert_ne by discriminate. by rewrite Hclk.
    + exists {| priority := priority c0; systemOffset := 5; lastUpdate := now' |}.
      rewrite (cbGetTime_forced _ now sys micom fb
                 {| priority := priority c0; systemOffset := 5;
                    lastUpdate := now' |}); [done | done | | ]; simpl.
      * apply lookup_insert_eq.
      * unfold invalidOffset, LONG_MIN. lia.
Qed.

Lemma C1_manual_override_forces_manual_witness :
  cbGetTime 1000 "ntp" micom true (Some system) h_manual5
  = reply_clock 1000 manual {| priority := 0; systemOffset := 5; lastUpdate := 100 |}
  ∧ cbGetTime 1000 "ntp" micom true None h_override_on
    = cbGetTime 1000 "ntp" micom false None h_override_on
  ∧ returnValue (cbGetTime 1000 "ntp" micom true None h_manual5) = true.
Proof.
  destruct C1_manual_override_forces_manual as (Hforced & Hfree & Hscen).
  split; [|split].
  - apply (Hforced h_manual5 1000 "ntp" micom (Some system)
             {| priority := 0; systemOffset := 5; lastUpdate := 100 |});
      [reflexivity | reflexivity | discriminate].
  - apply (Hfree h_override_on 1000 "ntp" micom None); [reflexivity|].
    intros clock Hc. vm_compute in Hc. injection Hc as <-. reflexivity.
  - destruct (Hscen ClockHandler_new 100 1000 "ntp" None) as (_ & clock & _ & _ & Hret & _);
      [by eexists | reflexivity | exact Hret].
Defined.

(** ** update *)

(** C3. An update of a registered source with an explicit timestamp that is
    not after the source's valid [lastUpdate] leaves the handler as it was,
    fires nothing and returns [true]. *)
Theorem C3_stale_explicit_update_ignored now offset tag timeStamp h clock :
  m_clocks h !! tag = Some clock →
  timeStamp ≠ invalidTime →
  lastUpdate clock ≠ invalidTime →
  timeStamp <= lastUpdate clock →
  update now offset tag timeStamp h = (true, h, []).
Proof.
  intros Hc Hts Hprev Hle. unfold update. rewrite Hc. simpl.
  destruct (decide (timeStamp = invalidTime)) as [|_]; [done|].
  destruct (decide (lastUpdate clock ≠ invalidTime ∧ lastUpdate clock >= timeStamp))
    as [_|Hn]; [done|].
  destruct Hn. split; [done | clear Hc; lia].
Qed.

Lemma C3_stale_explicit_update_ignored_witness :
  update 500 7 manual 100 h_stamped = (true, h_stamped, []).
Proof.
  apply (C3_stale_explicit_update_ignored 500 7 manual 100 h_stamped
           {| priority := 0; systemOffset := 1; lastUpdate := 100 |});
    [reflexivity | discriminate | discriminate | simpl; lia].
Defined.

(** C2, as stated, fails: with the sentinel timestamp the staleness check
    is skipped. "manual" was last updated at 100; an update without
    timestamp arriving when the process time reads 50 is accepted, and so
    is one arriving within the same second, at 100. *)
Lemma C2_counterexample :
  m_clocks h_stamped !! manual
  = Some {| priority := 0; systemOffset := 1; lastUpdate := 100 |}
  ∧ 100 ≠ invalidTime ∧ 100 >= 50
  ∧ update 50 7 manual invalidTime h_stamped ≠ (true, h_stamped, [])
  ∧ (update 50 7 manual invalidTime h_stamped).2 = [clockChanged manual 0 7 50]
  ∧ m_clocks (update 50 7 manual invalidTime h_stamped).1.2 !! manual
    = Some {| priority := 0; systemOffset := 7; lastUpdate := 50 |}
  ∧ (update 100 7 manual invalidTime h_stamped).2 = [clockChanged manual 0 7 100].
Proof.
  split; [reflexivity|]. split; [discriminate|]. split; [lia|].
  split; [|repeat split; reflexivity].
  intros Heq. apply (f_equal snd) in Heq. discriminate Heq.
Qed.

(** C2, amended. On a registered source: an update without timestamp takes
    the current process time and is always applied, whatever the previous
    [lastUpdate]: the clock gets the offset passed and the process time as
    stamp, keeps its priority, and one event with these values is fired.
    An update with an explicit timestamp is ignored (handler unchanged, no
    event, [true]) when the previous [lastUpdate] is valid and not less
    than it, and is applied with that timestamp otherwise. *)
Theorem C2_staleness_check_only_on_explicit_stamp now offset tag timeStamp h clock :
  m_clocks h !! tag = Some clock →
  (timeStamp = invalidTime →
     update now offset tag timeStamp h
     = (true,
        {| m_clocks :=
             <[tag := {| priority := priority clock; systemOffset := offset;
                         lastUpdate := now |}]> (m_clocks h);
           m_manualOverride := m_manualOverride h |},
        [clockChanged tag (priority clock) offset now])
     ∧ m_clocks (update now offset tag timeStamp h).1.2 !! tag
       = Some {| priority := priority clock; systemOffset := offset;
                 lastUpdate := now |})
  ∧ (timeStamp ≠ invalidTime →
     lastUpdate clock ≠ invalidTime → lastUpdate clock >= timeStamp →
     update now offset tag timeStamp h = (true, h, []))
  ∧ (timeStamp ≠ invalidTime →
     lastUpdate clock = invalidTime ∨ lastUpdate clock < timeStamp →
     update now offset tag timeStamp h
     = (true,
        {| m_clocks :=
             <[tag := {| priority := priority clock; systemOffset := offset;
                         lastUpdate := timeStamp |}]> (m_clocks h);
           m_manualOverride := m_manualOverride h |},
        [clockChanged tag (priority clock) offset timeStamp])
     ∧ m_clocks (update now offset tag timeStamp h).1.2 !! tag
       = Some {| priority := priority clock; systemOffset := offset;
                 lastUpdate := timeStamp |}).
Proof.
  intros Hc. split; [|split].
  - intros ->. rewrite (update_sentinel_stamp _ _ _ _ _ Hc).
    unfold accept_update. simpl. split; [done | apply lookup_insert_eq].
  - intros Hts Hprev Hge. unfold update. rewrite Hc. simpl.
    destruct (decide (timeStamp = invalidTime)) as [|_]; [done|].
    destruct (decide (lastUpdate clock ≠ invalidTime ∧ lastUpdate clock >= timeStamp))
      as [_|Hn]; [done|].
    by destruct Hn.
  - intros Hts Hfresh.
    assert (Hupd : update now offset tag timeStamp h
                   = accept_update offset tag timeStamp clock h).
    { unfold update. rewrite Hc. simpl.
      destruct (decide (timeStamp = invalidTime)) as [|_]; [done|].
      destruct (decide (lastUpdate clock ≠ invalidTime
                        ∧ lastUpdate clock >= timeStamp))
        as [[Hv Hge]|_]; [|done].
      destruct Hfresh; [done | clear Hc; lia]. }
    rewrite Hupd. unfold accept_update. simpl.
    split; [done | apply lookup_insert_eq].
Qed.

Lemma C2_staleness_check_only_on_explicit_stamp_witness :
  update 50 7 manual invalidTime h_stamped
  = (true,
     {| m_clocks :=
          <[manual := {| priority := 0; systemOffset := 7; lastUpdate := 50 |}]>
            (m_clocks h_stamped);
        m_manualOverride := false |},
     [clockChanged manual 0 7 50])
  ∧ update 50 7 manual 100 h_stamped = (true, h_stamped, []).
Proof.
  destruct (C2_staleness_check_only_on_explicit_stamp 50 7 manual invalidTime
              h_stamped {| priority := 0; systemOffset := 1; lastUpdate := 100 |})
    as (Hsentinel & _); [reflexivity|].
  destruct (C2_staleness_check_only_on_explicit_stamp 50 7 manual 100
              h_stamped {| priority := 0; systemOffset := 1; lastUpdate := 100 |})
    as (_ & Hstale & _); [reflexivity|].
  split.
  - apply Hsentinel. reflexivity.
  - apply Hstale; [discriminate | discriminate | simpl; lia].
Defined.

(** ** cbGetTime: fallback *)

Lemma it_unset_find tag m :
  it_unset (find tag m) = true
  ↔ ∀ clock, m !! tag = Some clock → systemOffset clock = invalidOffset.
Proof.
  unfold find. destruct (m !! tag) as [clock|]; simpl.
  - rewrite bool_decide_eq_true. split.
    + by intros Hc ? [= <-].
    + intros Hc. by apply Hc.
  - split; [by intros _ ? [=] | done].
Qed.

(** The override stage either forces "manual", which then has a valid
    offset, or leaves the parsed variables alone, whatever they are. *)
Lemma override_stage_cases want h src fb :
  (∃ clock, m_clocks h !! manual = Some clock
            ∧ systemOffset clock ≠ invalidOffset
            ∧ override_stage want h (parsed src fb)
              = {| source := manual; isSystem := false; haveFallback := false;
                   it := Some (manual, clock) |})
  ∨ (∀ src' fb', override_stage want h (parsed src' fb') = parsed src' fb').
Proof.
  unfold override_stage.
  destruct (want && m_manualOverride h); [|by right].
  unfold find. destruct (m_clocks h !! manual) as [clock|] eqn:Hman; simpl;
    [|by right].
  destruct (decide (systemOffset clock ≠ invalidOffset)) as [Hne|_];
    [left; by exists clock | by right].
Qed.

(** C4. When a fallback is given, the source left by the override stage is
    not "system" and that source is unregistered or has no offset, the
    handler goes on with the fallback as source ([isSystem] taken from the
    fallback) and replies as a request for the fallback would. For
    "micom" unregistered and fallback "system" the reply is the system
    one: success, offset 0, utc the current process time. *)
Theorem C4_fallback_replaces_source :
  (∀ h now sys src want fb,
     source (override_stage want h (parsed src (Some fb))) ≠ system →
     (∀ clock,
        m_clocks h !! source (override_stage want h (parsed src (Some fb)))
        = Some clock →
        systemOffset clock = invalidOffset) →
     fallback_stage fb h
       (find_stage h (override_stage want h (parsed src (Some fb))))
     = {| source := fb; isSystem := bool_decide (fb = system);
          haveFallback := true; it := find fb (m_clocks h) |}
     ∧ cbGetTime now sys src want (Some fb) h = cbGetTime now sys fb false None h
     ∧ cbGetTime now sys src want (Some fb) h = cbGetTime now sys fb want None h)
  ∧ (∀ h now sys,
     m_clocks h !! micom = None →
     cbGetTime now sys micom false (Some system) h = reply_system now sys
     ∧ returnValue (cbGetTime now sys micom false (Some system) h) = true
     ∧ offset_value (cbGetTime now sys micom false (Some system) h) = Some 0
     ∧ utc (cbGetTime now sys micom false (Some system) h) = Some now).
Proof.
  split.
  - intros h now sys src want fb Hsys Hunset.
    destruct (override_stage_cases want h src (Some fb))
      as [(clock & Hman & Hvalid & Hforced)|Hfree].
    { rewrite Hforced in Hunset. simpl in Hunset.
      destruct Hvalid. by apply Hunset. }
    rewrite Hfree in Hsys, Hunset. simpl in Hsys, Hunset.
    unfold cbGetTime. rewrite !Hfree.
    unfold find_stage, fallback_stage, parsed. simpl.
    rewrite (proj2 (it_unset_find src (m_clocks h)) Hunset).
    rewrite (bool_decide_eq_false_2 (src = system)) by done. simpl. done.
  - intros h now sys Hmicom.
    assert (cbGetTime now sys micom false (Some system) h = reply_system now sys) as ->.
    { unfold cbGetTime, override_stage, find_stage, fallback_stage, parsed. simpl.
      rewrite (find_None _ _ Hmicom). simpl. done. }
    done.
Qed.

Lemma C4_fallback_replaces_source_witness :
  cbGetTime 1000 "ntp" micom true (Some manual) h_override_on
  = cbGetTime 1000 "ntp" manual false None h_override_on
  ∧ cbGetTime 1000 "ntp" micom false (Some system) ClockHandler_new
    = reply_system 1000 "ntp".
Proof.
  destruct C4_fallback_replaces_source as (Hfallback & Hscenario).
  split.
  - apply (Hfallback h_override_on 1000 "ntp" micom true manual).
    + vm_compute. discriminate.
    + intros clock Hc. vm_compute in Hc. discriminate Hc.
  - apply (Hscenario ClockHandler_new 1000 "ntp"). reflexivity.
Defined.

(** ** manualOverride *)

(** The entries are visited in increasing key order, each key once. *)
Lemma clocks_in_order_sorted m : Sorted tag_le (clocks_in_order m).
Proof. apply Sorted_merge_sort, _. Qed.

Lemma clocks_in_order_elem m tag clock :
  (tag, clock) ∈ clocks_in_order m ↔ m !! tag = Some clock.
Proof.
  unfold clocks_in_order. rewrite merge_sort_Permutation.
  apply elem_of_map_to_list.
Qed.

Lemma clocks_in_order_NoDup m : NoDup (clocks_in_order m).*1.
Proof.
  unfold clocks_in_order. rewrite merge_sort_Permutation.
  apply NoDup_fst_map_to_list.
Qed.


Lemma resend_elem m tag prio offset stamp :
  clockChanged tag prio offset stamp ∈ resend m
  ↔ ∃ clock, m !! tag = Some clock ∧ lastUpdate clock ≠ invalidTime
             ∧ prio = priority clock ∧ offset = systemOffset clock
             ∧ stamp = lastUpdate clock.
Proof.
  unfold resend. rewrite list_elem_of_omap. split.
  - intros ([tag' clock] & Hin & Hsend).
    apply clocks_in_order_elem in Hin.
    unfold resend_one in Hsend. simpl in Hsend.
    destruct (decide (lastUpdate clock = invalidTime)); [done|].
    injection Hsend as ? ? ? ?. subst. by exists clock.
  - intros (clock & Hc & Hvalid & -> & -> & ->).
    exists (tag, clock). split; [by apply clocks_in_order_elem|].
    unfold resend_one. simpl.
    by destruct (decide (lastUpdate clock = invalidTime)).
Qed.


Lemma manualOverride_clocks enabled h :
  m_clocks (manualOverride enabled h).1 = m_clocks h.
Proof.
  rewrite manualOverride_unfold. case_bool_decide; [done|]. by destruct enabled.
Qed.

(** The loop fires nothing but what a loop that runs to its end fires. *)
Lemma resend_loop_elem (l : list (string * Clock)) e :
  e ∈ (resend_loop l).1 → e ∈ omap resend_one l.
Proof.
  induction l as [|[tag clock] l IH]; simpl; [done|].
  unfold resend_one at 1. simpl.
  destruct (decide (lastUpdate clock = invalidTime)); [done|].
  destruct (Clock_invariant clock); simpl; [|by intros ?%elem_of_nil].
  intros [->|Hin]%elem_of_cons; [by left | right; auto].
Qed.

Lemma resend_loop_tags_sublist (l : list (string * Clock)) :
  event_tag <$> (resend_loop l).1 `sublist_of` l.*1.
Proof.
  induction l as [|[tag clock] l IH]; simpl; [constructor|].
  destruct (decide (lastUpdate clock = invalidTime)); simpl.
  - by apply sublist_cons.
  - destruct (Clock_invariant clock); simpl.
    + by apply sublist_skip.
    + apply sublist_nil_l.
Qed.

Lemma resend_loop_NoDup m :
  NoDup (event_tag <$> (resend_loop (clocks_in_order m)).1).
Proof.
  eapply sublist_NoDup; [apply clocks_in_order_NoDup|].
  apply resend_loop_tags_sublist.
Qed.


(** On a state that satisfies the invariant no [assert] of
    [manualOverride] fails. *)
Lemma manualOverride_asserts_of_invariant enabled h :
  registry_invariant h → manualOverride_asserts enabled h = true.
Proof.
  intros Hinv. rewrite manualOverride_asserts_unfold.
  case_bool_decide; [done|]. destruct enabled; [done|]. simpl.
  apply forallb_forall. intros [tag clock] Hin.
  apply list_elem_of_In, clocks_in_order_elem in Hin.
  simpl. rewrite (Hinv tag clock Hin). apply orb_true_r.
Qed.




(** ** adjust *)

Lemma adjust_lookup d h tag :
  m_clocks (adjust d h) !! tag = adjust_clock d <$> m_clocks h !! tag.
Proof. unfold adjust. simpl. apply lookup_fmap. Qed.

Lemma adjust_clock_unset d clock :
  systemOffset clock = invalidOffset → adjust_clock d clock = clock.
Proof. intros Hoff. unfold adjust_clock. by rewrite decide_True. Qed.

Lemma adjust_clock_round_trip d clock :
  in_time_t (systemOffset clock) → in_time_t (lastUpdate clock) →
  (systemOffset clock ≠ invalidOffset →
   time_t_wrap (systemOffset clock - d) ≠ invalidOffset
   ∧ (lastUpdate clock ≠ invalidTime →
      time_t_wrap (lastUpdate clock + d) ≠ invalidTime)) →
  adjust_clock (time_t_wrap (- d)) (adjust_clock d clock) = clock.
Proof.
  intros Hoff Hstamp Hclear. destruct clock as [prio off stamp]. simpl in *.
  unfold adjust_clock at 2. simpl.
  destruct (decide (off = invalidOffset)) as [Hunset|Hset].
  { by apply adjust_clock_unset. }
  destruct (Hclear Hset) as [Hoff' Hstamp'].
  unfold adjust_clock. simpl.
  rewrite decide_False by done.
  destruct (decide (stamp ≠ invalidTime)) as [Hvalid|Hinvalid].
  - rewrite decide_True by auto.
    by rewrite time_t_sub_neg, time_t_add_neg.
  - rewrite decide_False by done.
    by rewrite time_t_sub_neg.
Qed.

(** C6, as stated, fails: stepping the time base by -5 moves the stamp 4
    onto [invalidTime], and the step back by 5 then leaves it there. *)
Lemma C6_counterexample :
  m_clocks h_stamp4 !! manual
  = Some {| priority := 0; systemOffset := 0; lastUpdate := 4 |}
  ∧ m_clocks (adjust (-5) h_stamp4) !! manual
    = Some {| priority := 0; systemOffset := 5; lastUpdate := invalidTime |}
  ∧ m_clocks (adjust (- (-5)) (adjust (-5) h_stamp4)) !! manual
    = Some {| priority := 0; systemOffset := 0; lastUpdate := invalidTime |}
  ∧ adjust (- (-5)) (adjust (-5) h_stamp4) ≠ h_stamp4.
Proof.
  split; [reflexivity|]. split; [reflexivity|]. split; [reflexivity|].
  intros Heq. apply (f_equal (λ h, m_clocks h !! manual)) in Heq.
  vm_compute in Heq. discriminate Heq.
Qed.

(** C6, amended. If the stored values are in the range of [time_t] and the
    step by [d] moves no valid offset onto [invalidOffset] and no valid
    [lastUpdate] onto [invalidTime], then [adjust(d)] followed by
    [adjust(-d)] gives the handler back. Clocks without offset are left as
    they are by both calls. *)
Theorem C6_adjust_round_trip d h :
  registry_in_range h →
  (∀ tag clock, m_clocks h !! tag = Some clock →
     systemOffset clock ≠ invalidOffset →
     time_t_wrap (systemOffset clock - d) ≠ invalidOffset
     ∧ (lastUpdate clock ≠ invalidTime →
        time_t_wrap (lastUpdate clock + d) ≠ invalidTime)) →
  adjust (time_t_wrap (- d)) (adjust d h) = h
  ∧ (∀ tag clock, m_clocks h !! tag = Some clock →
       systemOffset clock = invalidOffset →
       m_clocks (adjust d h) !! tag = Some clock
       ∧ m_clocks (adjust (time_t_wrap (- d)) (adjust d h)) !! tag = Some clock).
Proof.
  intros Hrange Hclear.
  assert (Hback : adjust (time_t_wrap (- d)) (adjust d h) = h).
  { destruct h as [clocks flag]. unfold adjust. simpl. f_equal.
    apply map_eq. intros tag. rewrite !lookup_fmap.
    destruct (clocks !! tag) as [clock|] eqn:Hc; simpl; [|done].
    f_equal. destruct (Hrange tag clock Hc) as [Hoff Hstamp].
    apply adjust_clock_round_trip; [done | done |].
    by apply (Hclear tag clock). }
  split; [exact Hback|].
  intros tag clock Hc Hunset. rewrite Hback. split; [|done].
  rewrite adjust_lookup, Hc. simpl. by rewrite adjust_clock_unset.
Qed.

Lemma C6_adjust_round_trip_witness :
  adjust (time_t_wrap (- 3600)) (adjust 3600 h_manual5) = h_manual5.
Proof.
  assert (Hm : m_clocks h_manual5
               = {[ manual := {| priority := 0; systemOffset := 5;
                                 lastUpdate := 100 |} ]}) by reflexivity.
  apply (C6_adjust_round_trip 3600 h_manual5).
  - intros tag clock Hc. rewrite Hm in Hc.
    apply lookup_singleton_Some in Hc as [_ <-]. vm_compute.
    repeat split; discriminate.
  - intros tag clock Hc _. rewrite Hm in Hc.
    apply lookup_singleton_Some in Hc as [_ <-]. vm_compute.
    split; [discriminate | intros _; discriminate].
Defined.

(** ** setup and update: what they store *)

Lemma setup_lookup_ne now t p o h tag :
  tag ≠ t → m_clocks (setup now t p o h) !! tag = m_clocks h !! tag.
Proof.
  intros Hne. unfold setup.
  destruct (m_clocks h !! t); simpl; by rewrite lookup_insert_ne.
Qed.

Lemma setup_lookup_new now t p o h :
  m_clocks h !! t = None →
  m_clocks (setup now t p o h) !! t
  = Some {| priority := p; systemOffset := o; lastUpdate := invalidTime |}.
Proof. intros Hnew. unfold setup. rewrite Hnew. simpl. apply lookup_insert_eq. Qed.

Lemma setup_lookup_keep now t p h clock :
  m_clocks h !! t = Some clock →
  m_clocks (setup now t p invalidOffset h) !! t
  = Some {| priority := p; systemOffset := systemOffset clock;
            lastUpdate := lastUpdate clock |}.
Proof.
  intros Hc. unfold setup. rewrite Hc. simpl. apply lookup_insert_eq.
Qed.

Lemma setup_lookup_overwrite now t p o h clock :
  m_clocks h !! t = Some clock → o ≠ invalidOffset →
  m_clocks (setup now t p o h) !! t
  = Some {| priority := p; systemOffset := o; lastUpdate := now |}.
Proof.
  intros Hc Ho. unfold setup. rewrite Hc. simpl.
  rewrite decide_True by done. apply lookup_insert_eq.
Qed.

Lemma setup_flag now t p o h :
  m_manualOverride (setup now t p o h) = m_manualOverride h.
Proof. unfold setup. by destruct (m_clocks h !! t). Qed.

(** The three ways [update] returns. *)
Lemma update_cases now offset t timeStamp h :
  (m_clocks h !! t = None ∧ update now offset t timeStamp h = (false, h, []))
  ∨ (is_Some (m_clocks h !! t) ∧ update now offset t timeStamp h = (true, h, []))
  ∨ (∃ clock stamp,
       m_clocks h !! t = Some clock
       ∧ update now offset t timeStamp h = accept_update offset t stamp clock h).
Proof.
  unfold update. destruct (m_clocks h !! t) as [clock|] eqn:Hc; [|by left].
  right. simpl. destruct (decide (timeStamp = invalidTime)).
  { right. by exists clock, now. }
  destruct (decide _).
  - left. split; [by eexists | done].
  - right. by exists clock, timeStamp.
Qed.

Lemma update_lookup_ne now offset t timeStamp h tag :
  tag ≠ t →
  m_clocks (update now offset t timeStamp h).1.2 !! tag = m_clocks h !! tag.
Proof.
  intros Hne.
  destruct (update_cases now offset t timeStamp h)
    as [[_ ->]|[[_ ->]|(clock & stamp & _ & ->)]]; simpl; [done | done |].
  by rewrite lookup_insert_ne.
Qed.

Lemma update_keeps_registered now offset t timeStamp h tag :
  is_Some (m_clocks h !! tag) →
  is_Some (m_clocks (update now offset t timeStamp h).1.2 !! tag).
Proof.
  intros Hreg.
  destruct (update_cases now offset t timeStamp h)
    as [[_ ->]|[[_ ->]|(clock & stamp & _ & ->)]]; simpl; [done | done |].
  destruct (decide (t = tag)) as [->|Hne].
  - rewrite lookup_insert_eq. by eexists.
  - by rewrite lookup_insert_ne.
Qed.

Lemma update_keeps_unregistered now offset t timeStamp h tag :
  m_clocks h !! tag = None →
  m_clocks (update now offset t timeStamp h).1.2 !! tag = None.
Proof.
  intros Hnone.
  destruct (update_cases now offset t timeStamp h)
    as [[_ ->]|[[_ ->]|(clock & stamp & Hc & ->)]]; simpl; [done | done |].
  rewrite lookup_insert_ne; [done|]. intros ->. by rewrite Hc in Hnone.
Qed.

(** ** From "no data" to "has data" *)

Lemma has_data_false h tag :
  has_data h tag = false
  ↔ ∀ clock, m_clocks h !! tag = Some clock → lastUpdate clock = invalidTime.
Proof.
  unfold has_data. destruct (m_clocks h !! tag) as [clock|].
  - rewrite negb_false_iff, bool_decide_eq_true. split.
    + by intros Hc ? [= <-].
    + intros Hc. by apply Hc.
  - split; [by intros _ ? [=] | done].
Qed.

Lemma adjust_keeps_no_data d h tag :
  has_data h tag = false → has_data (adjust d h) tag = false.
Proof.
  rewrite !has_data_false. intros Hno clock'. rewrite adjust_lookup.
  destruct (m_clocks h !! tag) as [clock|]; simpl; [|done].
  intros [= <-]. specialize (Hno clock eq_refl).
  unfold adjust_clock. destruct (decide _); [done|]. simpl.
  by rewrite decide_False by auto.
Qed.

Lemma setup_keeps_no_data now t p o h tag :
  m_clocks h !! t = None ∨ o = invalidOffset →
  has_data h tag = false → has_data (setup now t p o h) tag = false.
Proof.
  intros Hcase. rewrite !has_data_false. intros Hno clock'.
  destruct (decide (tag = t)) as [->|Hne]; [|rewrite setup_lookup_ne; auto].
  destruct (m_clocks h !! t) as [clock|] eqn:Hc.
  - destruct Hcase as [Hnone | ->]; [done|].
    rewrite (setup_lookup_keep _ _ _ _ clock Hc). intros [= <-]. simpl. auto.
  - rewrite setup_lookup_new by done. by intros [= <-].
Qed.

(** C5, as stated, fails: registering "manual" again with offset 5 when the
    process time reads 100 stamps the clock, which had no data before. *)
Lemma C5_counterexample :
  is_update (CallSetup manual 0 5) = false
  ∧ has_data ClockHandler_new manual = false
  ∧ has_data (step 100 (CallSetup manual 0 5) ClockHandler_new).1 manual = true
  ∧ m_clocks (setup 100 manual 0 5 ClockHandler_new) !! manual
    = Some {| priority := 0; systemOffset := 5; lastUpdate := 100 |}.
Proof. repeat split. Qed.

(** C5, amended. Registering a new tag, registering an existing tag again
    without offset, [adjust], [manualOverride] and [getTime] never take a
    clock from "no data" to "has data". Registering an existing tag again
    with an offset stores that offset and stamps the clock with the current
    process time. *)
Theorem C5_no_data_kept_except_update_and_reregistration :
  (∀ now c h tag,
     is_update c = false →
     (∀ t p o, c = CallSetup t p o →
               m_clocks h !! t = None ∨ o = invalidOffset) →
     has_data h tag = false →
     has_data (step now c h).1 tag = false)
  ∧ (∀ now t p o h clock,
     m_clocks h !! t = Some clock → o ≠ invalidOffset →
     m_clocks (setup now t p o h) !! t
     = Some {| priority := p; systemOffset := o; lastUpdate := now |}).
Proof.
  split.
  - intros now c h tag Hupd Hsetup Hno.
    destruct c as [t p o|offset t ts|d|enabled|src utcv now'|sys src want fb];
      simpl in *; try done.
    + apply setup_keeps_no_data; [by apply (Hsetup t p o) | done].
    + by apply adjust_keeps_no_data.
    + unfold has_data in *. by rewrite manualOverride_clocks.
  - intros now t p o h clock Hc Ho. by apply (setup_lookup_overwrite _ _ _ _ _ clock).
Qed.

Lemma C5_no_data_kept_except_update_and_reregistration_witness :
  has_data (step 100 (CallSetup micom 1 5) ClockHandler_new).1 micom = false
  ∧ has_data (step 100 (CallAdjust 7) ClockHandler_new).1 manual = false
  ∧ m_clocks (setup 100 manual 0 5 ClockHandler_new) !! manual
    = Some {| priority := 0; systemOffset := 5; lastUpdate := 100 |}.
Proof.
  destruct C5_no_data_kept_except_update_and_reregistration as [Hkeep Hstamp].
  split; [|split].
  - apply (Hkeep 100 (CallSetup micom 1 5) ClockHandler_new micom);
      [reflexivity | | reflexivity].
    intros t p o Heq. injection Heq as Ht _ _. subst t. left. reflexivity.
  - apply (Hkeep 100 (CallAdjust 7) ClockHandler_new manual);
      [reflexivity | | reflexivity].
    intros t p o Heq. discriminate Heq.
  - apply (Hstamp 100 manual 0 5 ClockHandler_new
             {| priority := 0; systemOffset := invalidOffset;
                lastUpdate := invalidTime |});
      [reflexivity | discriminate].
Defined.

(** ** Which tags are registered *)

Lemma step_keeps_registered now c h tag :
  is_Some (m_clocks h !! tag) → is_Some (m_clocks (step now c h).1 !! tag).
Proof.
  intros Hreg.
  call_cases c.
  - destruct (decide (tag = t)) as [->|Hne]; [|by rewrite setup_lookup_ne].
    unfold setup. destruct (m_clocks h !! t); simpl;
      rewrite lookup_insert_eq; by eexists.
  - by apply update_keeps_registered.
  - rewrite adjust_lookup. destruct Hreg as [clock ->]. by eexists.
  - by rewrite manualOverride_clocks.
  - by apply update_keeps_registered.
  - done.
Qed.

Lemma step_keeps_unregistered now c h tag :
  registers tag c = false →
  m_clocks h !! tag = None → m_clocks (step now c h).1 !! tag = None.
Proof.
  intros Hc Hnone.
  call_cases c.
  - simpl in Hc. apply bool_decide_eq_false in Hc.
    rewrite setup_lookup_ne by auto. done.
  - by apply update_keeps_unregistered.
  - by rewrite adjust_lookup, Hnone.
  - by rewrite manualOverride_clocks.
  - by apply update_keeps_unregistered.
  - done.
Qed.

Lemma run_keeps_registered calls h tag :
  is_Some (m_clocks h !! tag) → is_Some (m_clocks (run calls h) !! tag).
Proof.
  revert h. induction calls as [|[now c] calls IH]; intros h Hreg; simpl; [done|].
  by apply IH, step_keeps_registered.
Qed.

Lemma run_keeps_unregistered calls h tag :
  Forall (λ nc, registers tag nc.2 = false) calls →
  m_clocks h !! tag = None → m_clocks (run calls h) !! tag = None.
Proof.
  intros Hcalls. revert h.
  induction Hcalls as [|[now c] calls Hc _ IH]; intros h Hnone; simpl; [done|].
  by apply IH, step_keeps_unregistered.
Qed.

Lemma cbGetTime_system now sys fb h :
  cbGetTime now sys system false fb h = reply_system now sys.
Proof.
  unfold cbGetTime, override_stage, find_stage, fallback_stage, parsed, make_reply.
  simpl. by rewrite andb_false_r.
Qed.

(** C9, as stated, fails: [setup] takes any tag, "system" included. *)
Lemma C9_counterexample :
  m_clocks (run [(0, CallSetup system 0 invalidOffset)] ClockHandler_new) !! system
  = Some {| priority := 0; systemOffset := invalidOffset;
            lastUpdate := invalidTime |}.
Proof. reflexivity. Qed.

(** C9, amended. Along every sequence of calls that never registers the tag
    "system" through [setup], the registry has no entry "system"; and a
    [getTime] request for "system" without override is answered from the
    process clock with offset 0, whatever the registry holds. *)
Theorem C9_system_absent_unless_set_up :
  (∀ calls,
     Forall (λ nc, registers system nc.2 = false) calls →
     m_clocks (run calls ClockHandler_new) !! system = None)
  ∧ (∀ h now sys fb,
     cbGetTime now sys system false fb h = reply_system now sys).
Proof.
  split.
  - intros calls Hcalls. by apply run_keeps_unregistered.
  - intros. apply cbGetTime_system.
Qed.

Lemma C9_system_absent_unless_set_up_witness :
  m_clocks (run [(10, CallSetup micom 1 invalidOffset);
                 (20, CallUpdate 5 system invalidTime);
                 (30, CallSetTime system 1000 31);
                 (40, CallAdjust 3);
                 (50, CallManualOverride true)] ClockHandler_new) !! system
  = None.
Proof.
  apply (proj1 C9_system_absent_unless_set_up).
  repeat constructor.
Defined.

(** C10. The constructor registers "manual" with priority 0 and neither
    offset nor stamp; no call removes an entry; so after any sequence of
    calls "manual" is registered and [update] on it returns [true]. *)
Theorem C10_manual_always_registered :
  m_clocks ClockHandler_new
  = {[ manual := {| priority := 0; systemOffset := invalidOffset;
                    lastUpdate := invalidTime |} ]}
  ∧ m_manualOverride ClockHandler_new = false
  ∧ (∀ now c h tag,
       is_Some (m_clocks h !! tag) → is_Some (m_clocks (step now c h).1 !! tag))
  ∧ (∀ calls now offset timeStamp,
       is_Some (m_clocks (run calls ClockHandler_new) !! manual)
       ∧ (update now offset manual timeStamp (run calls ClockHandler_new)).1.1
         = true).
Proof.
  split; [reflexivity|]. split; [reflexivity|].
  split; [apply step_keeps_registered|].
  intros calls now offset timeStamp.
  assert (Hreg : is_Some (m_clocks (run calls ClockHandler_new) !! manual)).
  { apply run_keeps_registered. by eexists. }
  split; [done|].
  destruct (update_cases now offset manual timeStamp (run calls ClockHandler_new))
    as [[Hnone _]|[[_ ->]|(clock & stamp & _ & ->)]]; [|done|done].
  rewrite Hnone in Hreg. by destruct Hreg.
Qed.

Lemma C10_manual_always_registered_witness :
  is_Some (m_clocks (step 10 (CallSetup manual 3 7) ClockHandler_new).1 !! manual).
Proof.
  apply (proj1 (proj2 (proj2 C10_manual_always_registered))).
  by eexists.
Defined.

(** ** The invariant of Clock *)

Lemma Clock_invariant_true clock :
  Clock_invariant clock = true
  ↔ (lastUpdate clock ≠ invalidTime → systemOffset clock ≠ invalidOffset).
Proof.
  unfold Clock_invariant.
  rewrite orb_true_iff, negb_true_iff, bool_decide_eq_true, bool_decide_eq_false.
  destruct (decide (lastUpdate clock = invalidTime)) as [Hu|Hv].
  - split; [done | by left].
  - split; [intros [?|?]; done | intros Hset; right; by apply Hset].
Qed.

Lemma ClockHandler_new_invariant : registry_invariant ClockHandler_new.
Proof.
  intros tag clock. rewrite ClockHandler_new_clocks.
  intros [_ <-]%lookup_singleton_Some. reflexivity.
Qed.

Lemma setup_keeps_invariant now t p o h :
  registry_invariant h → registry_invariant (setup now t p o h).
Proof.
  intros Hinv tag clock'.
  destruct (decide (tag = t)) as [->|Hne];
    [|rewrite setup_lookup_ne by done; apply Hinv].
  destruct (m_clocks h !! t) as [clock|] eqn:Hc.
  - destruct (decide (o = invalidOffset)) as [->|Ho].
    + rewrite (setup_lookup_keep _ _ _ _ clock Hc). intros [= <-].
      apply Clock_invariant_true. simpl.
      by apply Clock_invariant_true, (Hinv t).
    + rewrite (setup_lookup_overwrite _ _ _ _ _ clock Hc Ho). intros [= <-].
      by apply Clock_invariant_true.
  - rewrite setup_lookup_new by done. intros [= <-].
    by apply Clock_invariant_true.
Qed.

Lemma manualOverride_keeps_invariant enabled h :
  registry_invariant h → registry_invariant (manualOverride enabled h).1.
Proof. unfold registry_invariant. by rewrite manualOverride_clocks. Qed.

Lemma update_keeps_invariant now offset t timeStamp h :
  offset ≠ invalidOffset →
  registry_invariant h →
  registry_invariant (update now offset t timeStamp h).1.2.
Proof.
  intros Ho Hinv.
  destruct (update_cases now offset t timeStamp h)
    as [[_ ->]|[[_ ->]|(clock & stamp & _ & ->)]]; simpl; [done | done |].
  intros tag clock'. simpl. destruct (decide (tag = t)) as [->|Hne].
  - rewrite lookup_insert_eq. intros [= <-]. by apply Clock_invariant_true.
  - rewrite lookup_insert_ne by done. apply Hinv.
Qed.

Lemma adjust_keeps_invariant d h :
  (∀ tag clock, m_clocks h !! tag = Some clock →
     systemOffset clock ≠ invalidOffset →
     time_t_wrap (systemOffset clock - d) ≠ invalidOffset) →
  registry_invariant h → registry_invariant (adjust d h).
Proof.
  intros Hclear Hinv tag clock'. rewrite adjust_lookup.
  destruct (m_clocks h !! tag) as [clock|] eqn:Hc; simpl; [|done].
  intros [= <-]. unfold adjust_clock.
  destruct (decide (systemOffset clock = invalidOffset)); [by apply (Hinv tag)|].
  apply Clock_invariant_true. simpl. intros _. by apply (Hclear tag).
Qed.

Lemma step_keeps_invariant now c h :
  offset_safe now c h →
  registry_invariant h → registry_invariant (step now c h).1.
Proof.
  intros Hsafe Hinv.
  call_cases c; cbn [offset_safe] in *.
  - by apply setup_keeps_invariant.
  - by apply update_keeps_invariant.
  - by apply adjust_keeps_invariant.
  - by apply manualOverride_keeps_invariant.
  - by apply update_keeps_invariant.
  - done.
Qed.

(** C8 does not hold of the code: the invariant that the [assert] of
    [manualOverride] states is lost by [update] when the offset passed is
    [invalidOffset] (also through [setTime], for utc = LONG_MIN + now),
    and by [adjust] when a valid offset lands on [invalidOffset]. After
    such an update, switching the override on and off again meets a
    failing [assert]. *)
Theorem C8_invariant_lost_on_sentinel_offset :
  registry_invariant ClockHandler_new
  ∧ m_clocks (update 0 invalidOffset manual 100 ClockHandler_new).1.2 !! manual
    = Some {| priority := 0; systemOffset := invalidOffset; lastUpdate := 100 |}
  ∧ Clock_invariant
      {| priority := 0; systemOffset := invalidOffset; lastUpdate := 100 |}
    = false
  ∧ manualOverride_asserts false (manualOverride true h_sentinel_offset).1
    = false
  ∧ ¬ registry_invariant (update 0 invalidOffset manual 100 ClockHandler_new).1.2
  ∧ ¬ registry_invariant
        (cbSetTime 1000 1000 manual (LONG_MIN + 1000) ClockHandler_new).1.2
  ∧ registry_invariant h_low_offset
  ∧ ¬ registry_invariant (adjust 1 h_low_offset).
Proof.
  split; [apply ClockHandler_new_invariant|].
  split; [reflexivity|]. split; [reflexivity|]. split; [reflexivity|].
  split; [|split; [|split]].
  - intros Hinv.
    specialize (Hinv manual
      {| priority := 0; systemOffset := invalidOffset; lastUpdate := 100 |}
      eq_refl). discriminate Hinv.
  - intros Hinv.
    specialize (Hinv manual
      {| priority := 0; systemOffset := invalidOffset; lastUpdate := 1000 |}
      eq_refl). discriminate Hinv.
  - apply update_keeps_invariant; [discriminate|].
    apply ClockHandler_new_invariant.
  - intros Hinv.
    specialize (Hinv manual
      {| priority := 0; systemOffset := invalidOffset; lastUpdate := 101 |}
      eq_refl). discriminate Hinv.
Qed.

(** ** Stored values stay in the range of time_t *)

Lemma ClockHandler_new_in_range : registry_in_range ClockHandler_new.
Proof.
  intros tag clock. rewrite ClockHandler_new_clocks.
  intros [_ <-]%lookup_singleton_Some.
  unfold in_time_t, LONG_MIN, LONG_MAX. simpl. unfold invalidOffset, invalidTime, LONG_MIN. lia.
Qed.

Lemma update_in_range now offset t timeStamp h :
  in_time_t now → in_time_t offset →
  in_time_t timeStamp →
  registry_in_range h → registry_in_range (update now offset t timeStamp h).1.2.
Proof.
  intros Hnow Ho Hts Hin. unfold update.
  destruct (m_clocks h !! t) as [clock|] eqn:Hc; [|done]. simpl.
  assert (Hacc : ∀ stamp, in_time_t stamp →
            registry_in_range (accept_update offset t stamp clock h).1.2).
  { intros stamp Hstamp tag clock'. simpl.
    destruct (decide (tag = t)) as [->|Hne].
    - rewrite lookup_insert_eq. by intros [= <-].
    - rewrite lookup_insert_ne by done. apply Hin. }
  destruct (decide (timeStamp = invalidTime)); [by apply Hacc|].
  destruct (decide _); [done | by apply Hacc].
Qed.

Lemma step_in_range now c h :
  call_in_range now c →
  registry_in_range h → registry_in_range (step now c h).1.
Proof.
  intros [Hnow Hc] Hin.
  call_cases c.
  - intros tag clock'.
    destruct (decide (tag = t)) as [->|Hne];
      [|rewrite setup_lookup_ne by done; apply Hin].
    unfold setup. destruct (m_clocks h !! t) as [clock|] eqn:Hclk; simpl;
      rewrite lookup_insert_eq; intros [= <-].
    + destruct (decide (o ≠ invalidOffset)); simpl; [done|]. by apply (Hin t).
    + split; [done | apply invalidTime_in_range].
  - destruct Hc. by apply update_in_range.
  - intros tag clock'. rewrite adjust_lookup.
    destruct (m_clocks h !! tag) as [clock|] eqn:Hclk; simpl; [|done].
    intros [= <-]. destruct (Hin tag clock Hclk) as [Ho Hs].
    unfold adjust_clock. destruct (decide _); [done|]. simpl.
    split; [apply time_t_wrap_in_range|].
    destruct (decide _); [apply time_t_wrap_in_range | done].
  - unfold registry_in_range. by rewrite manualOverride_clocks.
  - apply update_in_range;
      auto using time_t_wrap_in_range, invalidTime_in_range.
  - done.
Qed.

(** * Further properties of the clock handler *)

(** ** getTime: the order of resolution *)

Lemma clock_valid_spec h tag :
  clock_valid h tag = true
  ↔ ∃ clock, m_clocks h !! tag = Some clock ∧ systemOffset clock ≠ invalidOffset.
Proof.
  unfold clock_valid, find. destruct (m_clocks h !! tag) as [clock|]; simpl.
  - rewrite negb_true_iff, bool_decide_eq_false. split.
    + intros Hv. by exists clock.
    + by intros (c & [= <-] & Hv).
  - split; [done | by intros (c & [=] & _)].
Qed.

Lemma override_stage_eq want h src fb :
  override_stage want h (parsed src fb)
  = if want && m_manualOverride h && clock_valid h manual
    then {| source := manual; isSystem := false; haveFallback := false;
            it := find manual (m_clocks h) |}
    else parsed src fb.
Proof.
  unfold override_stage, clock_valid.
  destruct (want && m_manualOverride h); simpl; [|done].
  unfold find. destruct (m_clocks h !! manual) as [clock|]; simpl; [|done].
  destruct (decide (systemOffset clock ≠ invalidOffset)) as [Hv|Hu].
  - by rewrite bool_decide_eq_false_2.
  - assert (Heq : systemOffset clock = invalidOffset).
    { destruct (decide (systemOffset clock = invalidOffset)); [done|].
      by destruct Hu. }
    by rewrite (bool_decide_eq_true_2 _ Heq).
Qed.

Lemma make_reply_found now sys h s b :
  make_reply now sys
    {| source := s; isSystem := bool_decide (s = system); haveFallback := b;
       it := find s (m_clocks h) |}
  = plain_reply now sys h s.
Proof.
  unfold make_reply, plain_reply, clock_reply, find. simpl.
  case_bool_decide; [done|]. by destruct (m_clocks h !! s).
Qed.

Lemma cbGetTime_plain_reply now sys src want fb h :
  cbGetTime now sys src want fb h
  = plain_reply now sys h (resolved_source src want fb h).
Proof.
  unfold cbGetTime, resolved_source. rewrite override_stage_eq.
  destruct (want && m_manualOverride h && clock_valid h manual) eqn:Hforced.
  - apply andb_true_iff in Hforced as [_ Hvalid].
    unfold find_stage. simpl.
    unfold clock_valid in Hvalid.
    destruct (find manual (m_clocks h)) as [entry|] eqn:Hfind; [|done].
    unfold fallback_stage. simpl. rewrite <- Hfind.
    apply (make_reply_found now sys h manual false).
  - unfold find_stage, parsed, fallback_stage, usable, clock_valid. simpl.
    destruct (bool_decide (src = system)) eqn:Hsys; simpl.
    + rewrite andb_false_r. rewrite <- Hsys. apply make_reply_found.
    + rewrite andb_true_r.
      destruct (it_unset (find src (m_clocks h))) eqn:Hunset; simpl.
      * destruct fb as [f|]; simpl.
        -- apply make_reply_found.
        -- rewrite <- Hsys. apply make_reply_found.
      * rewrite andb_false_r. rewrite <- Hsys. apply make_reply_found.
Qed.

(** X1. The reply of [getTime] is the reply of one source taken on its own:
    "manual" when the override is requested, the global flag is on and the
    manual clock has an offset; else the requested source when it is
    "system" or a clock with an offset; else the fallback when one is
    given; else the requested source. *)
Theorem cbGetTime_resolution_order now sys src want fb h :
  cbGetTime now sys src want fb h
  = plain_reply now sys h (resolved_source src want fb h).
Proof. apply cbGetTime_plain_reply. Qed.

Lemma plain_reply_success now sys h s :
  returnValue (plain_reply now sys h s) = usable h s.
Proof.
  unfold plain_reply, usable, clock_reply, clock_valid, find.
  case_bool_decide; simpl; [done|].
  destruct (m_clocks h !! s) as [clock|]; simpl; [|done].
  destruct (decide (systemOffset clock = invalidOffset)) as [Hu|Hv]; simpl.
  - by rewrite bool_decide_eq_true_2.
  - by rewrite bool_decide_eq_false_2.
Qed.

(** X2. [getTime] replies with success exactly when the override applies
    (requested, flag on, manual clock with an offset), or the requested
    source is "system" or a clock with an offset, or a fallback is given
    that is "system" or a clock with an offset. *)
Theorem cbGetTime_success_iff now sys src want fb h :
  returnValue (cbGetTime now sys src want fb h) = true
  ↔ (want = true ∧ m_manualOverride h = true ∧ clock_valid h manual = true)
    ∨ usable h src = true
    ∨ (∃ f, fb = Some f ∧ usable h f = true).
Proof.
  rewrite cbGetTime_plain_reply, plain_reply_success.
  unfold resolved_source.
  destruct (want && m_manualOverride h && clock_valid h manual) eqn:Hforced.
  - apply andb_true_iff in Hforced as [[Hw Hf]%andb_true_iff Hv].
    split; [by left|]. intros _. unfold usable. by rewrite Hv, orb_true_r.
  - destruct (usable h src) eqn:Hsrc.
    + split; [by right; left | done].
    + destruct fb as [f|]; simpl.
      * split.
        -- intros Hf. right. right. by exists f.
        -- intros [(Hw & Hf & Hv)|[Hs|(f' & [= <-] & Hf)]]; [|done|done].
           by rewrite Hw, Hf, Hv in Hforced.
      * split; [by rewrite Hsrc|].
        intros [(Hw & Hf & Hv)|[Hs|(f' & [=] & _)]]; [|done].
        by rewrite Hw, Hf, Hv in Hforced.
Qed.

(** ** setTime *)

Lemma cbSetTime_registered now now' src utcInteger h clock :
  m_clocks h !! src = Some clock →
  cbSetTime now now' src utcInteger h
  = accept_update (time_t_wrap (utcInteger - now)) src now' clock h.
Proof. intros Hc. unfold cbSetTime. by apply update_sentinel_stamp. Qed.

(** X3. [setTime] fails exactly when the source is not registered, and then
    changes nothing and fires nothing. On a registered source it is never
    dropped as stale: the clock takes the offset utc - now and the stamp of
    the current time, its priority is kept and one event is fired. *)
Theorem cbSetTime_accepted_iff_registered now now' src utcInteger h :
  ((cbSetTime now now' src utcInteger h).1.1 = true
   ↔ is_Some (m_clocks h !! src))
  ∧ (m_clocks h !! src = None →
     cbSetTime now now' src utcInteger h = (false, h, []))
  ∧ (∀ clock, m_clocks h !! src = Some clock →
     (cbSetTime now now' src utcInteger h).1.1 = true
     ∧ m_clocks (cbSetTime now now' src utcInteger h).1.2 !! src
       = Some {| priority := priority clock;
                 systemOffset := time_t_wrap (utcInteger - now);
                 lastUpdate := now' |}
     ∧ (cbSetTime now now' src utcInteger h).2
       = [clockChanged src (priority clock)
            (time_t_wrap (utcInteger - now)) now']).
Proof.
  unfold cbSetTime. split; [|split].
  - destruct (m_clocks h !! src) as [clock|] eqn:Hc.
    + rewrite (update_sentinel_stamp _ _ _ _ clock Hc). simpl.
      split; [by eexists | done].
    + unfold update. rewrite Hc. simpl. split; [done | by intros [? ?]].
  - intros Hc. unfold update. by rewrite Hc.
  - intros clock Hc. rewrite (update_sentinel_stamp _ _ _ _ clock Hc). simpl.
    split; [done|]. split; [apply lookup_insert_eq | done].
Qed.

Lemma cbSetTime_accepted_iff_registered_witness :
  cbSetTime 1000 1001 micom 5000 ClockHandler_new = (false, ClockHandler_new, [])
  ∧ (cbSetTime 1000 1001 manual 5000 ClockHandler_new).2
    = [clockChanged manual 0 4000 1001].
Proof.
  split.
  - apply (proj1 (proj2 (cbSetTime_accepted_iff_registered 1000 1001 micom 5000
                           ClockHandler_new))). reflexivity.
  - apply (proj2 (proj2 (cbSetTime_accepted_iff_registered 1000 1001 manual 5000
                           ClockHandler_new))
             {| priority := 0; systemOffset := invalidOffset;
                lastUpdate := invalidTime |}). reflexivity.
Defined.

Lemma time_t_wrap_add_l a b :
  time_t_wrap (a + time_t_wrap b) = time_t_wrap (a + b).
Proof.
  destruct (time_t_wrap_repr b) as [k ->].
  replace (a + (b + k * 2 ^ 64)) with (a + b + k * 2 ^ 64) by lia.
  apply time_t_wrap_period.
Qed.

Lemma time_t_wrap_add_r a b :
  time_t_wrap (time_t_wrap a + b) = time_t_wrap (a + b).
Proof. rewrite (Z.add_comm _ b), time_t_wrap_add_l. f_equal. lia. Qed.

Lemma plain_reply_valid now sys h s clock :
  s ≠ system → m_clocks h !! s = Some clock →
  systemOffset clock ≠ invalidOffset →
  plain_reply now sys h s = reply_clock now s clock.
Proof.
  intros Hs Hc Hv. unfold plain_reply, clock_reply.
  rewrite bool_decide_eq_false_2 by done. rewrite Hc.
  by destruct (decide (systemOffset clock = invalidOffset)).
Qed.

Lemma usable_valid h s clock :
  m_clocks h !! s = Some clock → systemOffset clock ≠ invalidOffset →
  usable h s = true.
Proof.
  intros Hc Hv. unfold usable.
  rewrite (proj2 (clock_valid_spec h s)); [apply orb_true_r | by exists clock].
Qed.

(** X4. The time set is the time read back. After [setTime(src, utc)] on a
    registered source other than "system", with utc - now not the value
    [invalidOffset], a [getTime] for that source without override succeeds,
    whatever the fallback, with the offset utc - now and with utc advanced
    by the process time elapsed since; asked at the same process time it
    returns the utc that was set. *)
Theorem setTime_then_getTime now now' now2 sys src utcInteger fb h :
  is_Some (m_clocks h !! src) →
  src ≠ system →
  time_t_wrap (utcInteger - now) ≠ invalidOffset →
  let h' := (cbSetTime now now' src utcInteger h).1.2 in
  returnValue (cbGetTime now2 sys src false fb h') = true
  ∧ reply_source (cbGetTime now2 sys src false fb h') = Some src
  ∧ offset_value (cbGetTime now2 sys src false fb h')
    = Some (time_t_wrap (utcInteger - now))
  ∧ utc (cbGetTime now2 sys src false fb h')
    = Some (time_t_wrap (utcInteger + (now2 - now)))
  ∧ (in_time_t utcInteger →
     utc (cbGetTime now sys src false fb h') = Some utcInteger).
Proof.
  intros [clock Hc] Hsys Hvalid h'.
  assert (Hstored : m_clocks h' !! src
            = Some {| priority := priority clock;
                      systemOffset := time_t_wrap (utcInteger - now);
                      lastUpdate := now' |}).
  { subst h'. rewrite (cbSetTime_registered _ _ _ _ _ clock Hc). simpl.
    apply lookup_insert_eq. }
  assert (Hreply : ∀ t, cbGetTime t sys src false fb h'
            = reply_clock t src
                {| priority := priority clock;
                   systemOffset := time_t_wrap (utcInteger - now);
                   lastUpdate := now' |}).
  { intros t. rewrite cbGetTime_plain_reply. unfold resolved_source.
    simpl. rewrite (usable_valid h' src _ Hstored) by done.
    by apply plain_reply_valid. }
  rewrite !Hreply. simpl. repeat split.
  - rewrite time_t_wrap_add_l. f_equal. f_equal. lia.
  - intros Hrange. rewrite time_t_wrap_add_l. f_equal.
    replace (now + (utcInteger - now)) with utcInteger by lia.
    by apply time_t_wrap_id.
Qed.

Lemma setTime_then_getTime_witness :
  utc (cbGetTime 1000 "ntp" manual false None
         (cbSetTime 1000 1001 manual 5000 ClockHandler_new).1.2)
  = Some 5000.
Proof.
  apply (setTime_then_getTime 1000 1001 1000 "ntp" manual 5000 None
           ClockHandler_new).
  - by eexists.
  - discriminate.
  - vm_compute. discriminate.
  - vm_compute. split; discriminate.
Defined.

(** ** adjust and the time reported *)

Lemma time_t_wrap_sub_l a b :
  time_t_wrap (time_t_wrap a - b) = time_t_wrap (a - b).
Proof. apply (time_t_wrap_add_r a (- b)). Qed.

Lemma time_t_wrap_sub_r a b :
  time_t_wrap (a - time_t_wrap b) = time_t_wrap (a - b).
Proof.
  destruct (time_t_wrap_repr b) as [k ->].
  replace (a - (b + k * 2 ^ 64)) with (a - b + (- k) * 2 ^ 64) by lia.
  apply time_t_wrap_period.
Qed.

Section Adjust.
Variable d : Z.
Variable h : ClockHandler.

(** The step moves no valid offset onto [invalidOffset]. *)
Hypothesis offsets_clear :
  ∀ tag clock, m_clocks h !! tag = Some clock →
    systemOffset clock ≠ invalidOffset →
    time_t_wrap (systemOffset clock - d) ≠ invalidOffset.

Lemma clock_valid_adjust tag : clock_valid (adjust d h) tag = clock_valid h tag.
Proof.
  unfold clock_valid, find. rewrite adjust_lookup.
  destruct (m_clocks h !! tag) as [clock|] eqn:Hc; simpl; [|done].
  f_equal. unfold adjust_clock.
  destruct (decide (systemOffset clock = invalidOffset)) as [Hu|Hv]; [done|].
  simpl. rewrite (bool_decide_eq_false_2 _ Hv).
  by rewrite (bool_decide_eq_false_2 _ (offsets_clear tag clock Hc Hv)).
Qed.

Lemma usable_adjust s : usable (adjust d h) s = usable h s.
Proof. unfold usable. by rewrite clock_valid_adjust. Qed.

Lemma resolved_source_adjust src want fb :
  resolved_source src want fb (adjust d h) = resolved_source src want fb h.
Proof.
  unfold resolved_source. by rewrite clock_valid_adjust, usable_adjust.
Qed.

Lemma plain_reply_adjust now sys s :
  let r := plain_reply now sys h s in
  let r' := plain_reply (time_t_wrap (now + d)) sys (adjust d h) s in
  returnValue r' = returnValue r
  ∧ errorText r' = errorText r
  ∧ reply_source r' = reply_source r
  ∧ reply_priority r' = reply_priority r
  ∧ (reply_source r ≠ Some system →
     utc r' = utc r
     ∧ offset_value r' = (λ o, time_t_wrap (o - d)) <$> offset_value r).
Proof.
  unfold plain_reply. case_bool_decide as Hs; simpl.
  { repeat split; done. }
  unfold clock_reply. rewrite adjust_lookup.
  destruct (m_clocks h !! s) as [clock|] eqn:Hc; simpl; [|done].
  destruct (decide (systemOffset clock = invalidOffset)) as [Hu|Hv].
  - rewrite (adjust_clock_unset d clock Hu).
    by rewrite decide_True by done.
  - pose proof (offsets_clear s clock Hc Hv) as Hv'.
    unfold adjust_clock.
    destruct (decide (systemOffset clock = invalidOffset)); [done|]. simpl.
    destruct (decide (time_t_wrap (systemOffset clock - d) = invalidOffset));
      [done|]. simpl.
    repeat split; try done.
    rewrite time_t_wrap_add_l, time_t_wrap_add_r. do 2 f_equal. lia.
Qed.
End Adjust.

(** X5. A step of the time base leaves the time reported unchanged. If
    [adjust(d)] moves no valid offset onto [invalidOffset], a [getTime]
    made after the step, when the process time reads now + d, selects the
    same source with the same outcome, error text and priority as the same
    request before the step; when the source is not "system" the utc
    reported is the same and the offset reported is lower by d. *)
Theorem adjust_keeps_reported_time d now sys src want fb h :
  (∀ tag clock, m_clocks h !! tag = Some clock →
     systemOffset clock ≠ invalidOffset →
     time_t_wrap (systemOffset clock - d) ≠ invalidOffset) →
  let r := cbGetTime now sys src want fb h in
  let r' := cbGetTime (time_t_wrap (now + d)) sys src want fb (adjust d h) in
  returnValue r' = returnValue r
  ∧ errorText r' = errorText r
  ∧ reply_source r' = reply_source r
  ∧ reply_priority r' = reply_priority r
  ∧ (reply_source r ≠ Some system →
     utc r' = utc r
     ∧ offset_value r' = (λ o, time_t_wrap (o - d)) <$> offset_value r).
Proof.
  intros Hclear. cbv zeta.
  rewrite !cbGetTime_plain_reply.
  rewrite (resolved_source_adjust d h Hclear).
  apply (plain_reply_adjust d h Hclear).
Qed.

Lemma adjust_keeps_reported_time_witness :
  utc (cbGetTime (time_t_wrap (1000 + 3600)) "ntp" manual false None
         (adjust 3600 h_manual5))
  = utc (cbGetTime 1000 "ntp" manual false None h_manual5).
Proof.
  assert (Hm : m_clocks h_manual5
               = {[ manual := {| priority := 0; systemOffset := 5;
                                 lastUpdate := 100 |} ]}) by reflexivity.
  refine (proj1 (proj2 (proj2 (proj2 (proj2
            (adjust_keeps_reported_time 3600 1000 "ntp" manual false None
               h_manual5 _)))) _)).
  - intros tag clock Hc _. rewrite Hm in Hc.
    apply lookup_singleton_Some in Hc as [_ <-]. vm_compute. discriminate.
  - vm_compute. discriminate.
Defined.

(** ** adjust: composition *)

Lemma adjust_clock_compose d1 d2 clock :
  (systemOffset clock ≠ invalidOffset →
   time_t_wrap (systemOffset clock - d1) ≠ invalidOffset
   ∧ (lastUpdate clock ≠ invalidTime →
      time_t_wrap (lastUpdate clock + d1) ≠ invalidTime)) →
  adjust_clock d2 (adjust_clock d1 clock)
  = adjust_clock (time_t_wrap (d1 + d2)) clock.
Proof.
  intros Hclear. unfold adjust_clock at 2 3.
  destruct (decide (systemOffset clock = invalidOffset)) as [Hu|Hv].
  { by apply adjust_clock_unset. }
  destruct (Hclear Hv) as [Hoff Hstamp].
  unfold adjust_clock. simpl. rewrite decide_False by done. f_equal.
  - rewrite time_t_wrap_sub_l, time_t_wrap_sub_r. f_equal. lia.
  - destruct (decide (lastUpdate clock ≠ invalidTime)) as [Hs|Hs].
    + rewrite decide_True by auto.
      rewrite time_t_wrap_add_r, time_t_wrap_add_l. f_equal. lia.
    + by rewrite decide_False by done.
Qed.

Lemma adjust_clock_zero clock :
  in_time_t (systemOffset clock) → in_time_t (lastUpdate clock) →
  adjust_clock 0 clock = clock.
Proof.
  intros Ho Hs. destruct clock as [p o s]. unfold adjust_clock. simpl in *.
  destruct (decide (o = invalidOffset)); [done|].
  rewrite Z.sub_0_r, Z.add_0_r, !time_t_wrap_id by done.
  by destruct (decide (s ≠ invalidTime)).
Qed.

(** X6. Steps of the time base add up. When the first step moves no valid
    offset onto [invalidOffset] and no valid stamp onto [invalidTime],
    [adjust(d1)] followed by [adjust(d2)] is [adjust(d1 + d2)]; and
    [adjust(0)] leaves a handler whose values are in the range of [time_t]
    as it is. *)
Theorem adjust_steps_add_up d1 d2 h :
  ((∀ tag clock, m_clocks h !! tag = Some clock →
      systemOffset clock ≠ invalidOffset →
      time_t_wrap (systemOffset clock - d1) ≠ invalidOffset
      ∧ (lastUpdate clock ≠ invalidTime →
         time_t_wrap (lastUpdate clock + d1) ≠ invalidTime)) →
   adjust d2 (adjust d1 h) = adjust (time_t_wrap (d1 + d2)) h)
  ∧ (registry_in_range h → adjust 0 h = h).
Proof.
  split.
  - intros Hclear. destruct h as [clocks flag]. unfold adjust. simpl in *.
    f_equal. apply map_eq. intros tag. rewrite !lookup_fmap.
    destruct (clocks !! tag) as [clock|] eqn:Hc; simpl; [|done].
    f_equal. apply adjust_clock_compose. by apply (Hclear tag).
  - intros Hrange. destruct h as [clocks flag]. unfold adjust. simpl in *.
    f_equal. apply map_eq. intros tag. rewrite lookup_fmap.
    destruct (clocks !! tag) as [clock|] eqn:Hc; simpl; [|done].
    f_equal. destruct (Hrange tag clock Hc). by apply adjust_clock_zero.
Qed.

Lemma adjust_steps_add_up_witness :
  adjust 20 (adjust 10 h_manual5) = adjust (time_t_wrap (10 + 20)) h_manual5
  ∧ adjust 0 h_manual5 = h_manual5.
Proof.
  assert (Hm : m_clocks h_manual5
               = {[ manual := {| priority := 0; systemOffset := 5;
                                 lastUpdate := 100 |} ]}) by reflexivity.
  split.
  - apply (proj1 (adjust_steps_add_up 10 20 h_manual5)).
    intros tag clock Hc _. rewrite Hm in Hc.
    apply lookup_singleton_Some in Hc as [_ <-]. vm_compute.
    split; [discriminate | intros _; discriminate].
  - apply (proj2 (adjust_steps_add_up 10 20 h_manual5)).
    intros tag clock Hc. rewrite Hm in Hc.
    apply lookup_singleton_Some in Hc as [_ <-]. vm_compute.
    repeat split; discriminate.
Defined.

(** ** update: timestamps *)

Lemma update_fresh now offset tag timeStamp h clock :
  m_clocks h !! tag = Some clock →
  timeStamp ≠ invalidTime →
  lastUpdate clock = invalidTime ∨ lastUpdate clock < timeStamp →
  update now offset tag timeStamp h = accept_update offset tag timeStamp clock h.
Proof.
  intros Hc Hts Hfresh. unfold update. rewrite Hc. simpl.
  destruct (decide (timeStamp = invalidTime)) as [|_]; [done|].
  destruct (decide (lastUpdate clock ≠ invalidTime ∧ lastUpdate clock >= timeStamp))
    as [[Hv Hge]|_]; [|done].
  destruct Hfresh; [done | lia].
Qed.

Lemma update_stale now offset tag timeStamp h clock :
  m_clocks h !! tag = Some clock →
  timeStamp ≠ invalidTime →
  lastUpdate clock ≠ invalidTime → timeStamp <= lastUpdate clock →
  update now offset tag timeStamp h = (true, h, []).
Proof.
  intros Hc Hts Hv Hle. unfold update. rewrite Hc. simpl.
  destruct (decide (timeStamp = invalidTime)) as [|_]; [done|].
  destruct (decide (lastUpdate clock ≠ invalidTime ∧ lastUpdate clock >= timeStamp))
    as [_|Hn]; [done|].
  destruct Hn. split; [done | lia].
Qed.

(** X7. With explicit timestamps the stamp of a clock never goes back: an
    update of a clock that already has a stamp leaves it with the larger
    of the old stamp and the timestamp passed, and with the offset passed
    only when the timestamp passed is the larger one. *)
Theorem update_explicit_stamp_is_max now offset tag timeStamp h clock :
  m_clocks h !! tag = Some clock →
  lastUpdate clock ≠ invalidTime →
  timeStamp ≠ invalidTime →
  m_clocks (update now offset tag timeStamp h).1.2 !! tag
  = Some {| priority := priority clock;
            systemOffset := if decide (lastUpdate clock < timeStamp)
                            then offset else systemOffset clock;
            lastUpdate := Z.max (lastUpdate clock) timeStamp |}.
Proof.
  intros Hc Hv Hts.
  destruct (decide (lastUpdate clock < timeStamp)) as [Hlt|Hge].
  - rewrite (update_fresh _ _ _ _ _ clock) by auto. simpl.
    rewrite lookup_insert_eq. do 2 f_equal. lia.
  - rewrite (update_stale _ _ _ _ _ clock) by (done || lia). simpl.
    rewrite Hc. f_equal. destruct clock as [p o s]. simpl in *. f_equal. lia.
Qed.

Lemma update_explicit_stamp_is_max_witness :
  m_clocks (update 0 9 manual 250 h_stamped).1.2 !! manual
  = Some {| priority := 0; systemOffset := 9; lastUpdate := 250 |}
  ∧ m_clocks (update 0 9 manual 40 h_stamped).1.2 !! manual
    = Some {| priority := 0; systemOffset := 1; lastUpdate := 100 |}.
Proof.
  split.
  - apply (update_explicit_stamp_is_max 0 9 manual 250 h_stamped
             {| priority := 0; systemOffset := 1; lastUpdate := 100 |});
      [reflexivity | discriminate | discriminate].
  - apply (update_explicit_stamp_is_max 0 9 manual 40 h_stamped
             {| priority := 0; systemOffset := 1; lastUpdate := 100 |});
      [reflexivity | discriminate | discriminate].
Defined.

(** X8. A report repeated with the same explicit timestamp is dropped:
    after an update of a registered clock with a timestamp, a second update
    with that timestamp, whatever its offset, returns [true], changes
    nothing and fires nothing. *)
Theorem update_same_stamp_twice now1 now2 offset1 offset2 tag timeStamp h :
  is_Some (m_clocks h !! tag) →
  timeStamp ≠ invalidTime →
  update now2 offset2 tag timeStamp (update now1 offset1 tag timeStamp h).1.2
  = (true, (update now1 offset1 tag timeStamp h).1.2, []).
Proof.
  intros [clock Hc] Hts.
  destruct (decide (lastUpdate clock ≠ invalidTime ∧ timeStamp <= lastUpdate clock))
    as [[Hv Hle]|Hfresh].
  - rewrite (update_stale now1 _ _ _ _ clock) by done. simpl.
    by apply (update_stale now2 _ _ _ _ clock).
  - rewrite (update_fresh now1 _ _ _ _ clock); [|done|done|].
    + simpl.
      apply (update_stale now2 _ _ _ _
               {| priority := priority clock; systemOffset := offset1;
                  lastUpdate := timeStamp |}); simpl; [|done|done|lia].
      apply lookup_insert_eq.
    + destruct (decide (lastUpdate clock = invalidTime)); [by left|].
      right. destruct (decide (lastUpdate clock < timeStamp)); [done|].
      destruct Hfresh. split; [done | lia].
Qed.

Lemma update_same_stamp_twice_witness :
  update 7 99 manual 100 (update 5 1 manual 100 ClockHandler_new).1.2
  = (true, (update 5 1 manual 100 ClockHandler_new).1.2, []).
Proof.
  apply (update_same_stamp_twice 5 7 1 99 manual 100 ClockHandler_new);
    [by eexists | discriminate].
Defined.

(** The clock left by a sequence of updates that are all accepted. *)
Lemma run_updates_ascending tag l : ∀ h clock,
  m_clocks h !! tag = Some clock →
  ascending (lastUpdate clock) l →
  m_clocks (run (updates_of tag l) h) !! tag
  = Some match last l with
         | Some u => {| priority := priority clock; systemOffset := u.1.2;
                        lastUpdate := u.2 |}
         | None => clock
         end.
Proof.
  induction l as [|[[now o] ts] l IH]; intros h clock Hc Hasc; simpl; [done|].
  destruct Hasc as (Hts & Hfresh & Hrest). simpl in *.
  rewrite (update_fresh _ _ _ _ _ clock) by done. simpl.
  rewrite (IH _ {| priority := priority clock; systemOffset := o;
                   lastUpdate := ts |}); [| apply lookup_insert_eq | done].
  simpl. f_equal. rewrite last_cons. by destruct (last l).
Qed.

(** X9. After a sequence of updates of one registered clock whose explicit
    timestamps increase strictly, the first being above the stamp the clock
    had, the clock holds the offset and timestamp of the last update and
    its priority is unchanged. *)
Theorem updates_with_increasing_stamps tag l h clock u :
  m_clocks h !! tag = Some clock →
  ascending (lastUpdate clock) l →
  last l = Some u →
  m_clocks (run (updates_of tag l) h) !! tag
  = Some {| priority := priority clock; systemOffset := u.1.2;
            lastUpdate := u.2 |}.
Proof.
  intros Hc Hasc Hlast.
  rewrite (run_updates_ascending tag l h clock Hc Hasc). by rewrite Hlast.
Qed.

Lemma updates_with_increasing_stamps_witness :
  m_clocks (run (updates_of manual [(0, 5, 200); (0, 6, 300); (0, 7, 301)])
              h_stamped) !! manual
  = Some {| priority := 0; systemOffset := 7; lastUpdate := 301 |}.
Proof.
  apply (updates_with_increasing_stamps manual
           [(0, 5, 200); (0, 6, 300); (0, 7, 301)] h_stamped
           {| priority := 0; systemOffset := 1; lastUpdate := 100 |} (0, 7, 301)).
  - reflexivity.
  - simpl. repeat split; try discriminate; right; lia.
  - reflexivity.
Defined.

(** ** Events and the registry *)

(** X10. Every event fired reports what the registry holds: whatever the
    call, an event fired by it carries the priority, offset and stamp that
    the clock of its tag has when the call returns; and a call fires at
    most one event for a tag. *)
Theorem events_report_registry now c h :
  (∀ tag prio offset stamp,
     clockChanged tag prio offset stamp ∈ (step now c h).2 →
     m_clocks (step now c h).1 !! tag
     = Some {| priority := prio; systemOffset := offset; lastUpdate := stamp |})
  ∧ NoDup (event_tag <$> (step now c h).2).
Proof.
  assert (Hupd : ∀ t o tm ts,
    (∀ tag prio offset stamp,
       clockChanged tag prio offset stamp ∈ (update tm o t ts h).2 →
       m_clocks (update tm o t ts h).1.2 !! tag
       = Some {| priority := prio; systemOffset := offset; lastUpdate := stamp |})
    ∧ NoDup (event_tag <$> (update tm o t ts h).2)).
  { intros t o tm ts.
    destruct (update_cases tm o t ts h)
      as [[_ ->]|[[_ ->]|(clock & stamp & _ & ->)]]; simpl.
    - split; [by intros ???? ?%elem_of_nil | constructor].
    - split; [by intros ???? ?%elem_of_nil | constructor].
    - split.
      + intros tag prio offset st [= -> -> -> ->]%list_elem_of_singleton.
        apply lookup_insert_eq.
      + apply NoDup_singleton. }
  destruct c as [t p o|offset t ts|d|enabled|src utcv now'|sys src want fb];
    cbn [step fst snd cbSetTime].
  - split; [by intros ???? ?%elem_of_nil | constructor].
  - apply Hupd.
  - split; [by intros ???? ?%elem_of_nil | constructor].
  - rewrite manualOverride_clocks, manualOverride_unfold.
    case_bool_decide; simpl;
      [split; [by intros ???? ?%elem_of_nil | constructor]|].
    destruct enabled; simpl;
      [split; [by intros ???? ?%elem_of_nil | constructor]|].
    split; [|apply resend_loop_NoDup].
    intros tag prio offset stamp Hin%resend_loop_elem.
    apply resend_elem in Hin as (clock & Hc & _ & -> & -> & ->).
    rewrite Hc. by destruct clock.
  - apply Hupd.
  - split; [by intros ???? ?%elem_of_nil | constructor].
Qed.

(** ** What a call leaves alone *)

(** X11. Calls touch only what they name. Only [manualOverride] changes the
    global flag; [setup], [update] and [setTime] leave the clock of every
    other tag as it is, and so do [manualOverride] and [getTime] for all
    tags; the priority of a registered clock changes only by [setup]. *)
Theorem calls_touch_only_what_they_name now c h :
  (is_override c = false →
   m_manualOverride (step now c h).1 = m_manualOverride h)
  ∧ (∀ tag, is_adjust c = false → call_tag c ≠ Some tag →
     m_clocks (step now c h).1 !! tag = m_clocks h !! tag)
  ∧ (∀ tag clock, is_setup c = false →
     m_clocks h !! tag = Some clock →
     ∃ clock', m_clocks (step now c h).1 !! tag = Some clock'
               ∧ priority clock' = priority clock).
Proof.
  assert (Hflag : ∀ t o tm ts,
            m_manualOverride (update tm o t ts h).1.2 = m_manualOverride h).
  { intros. destruct (update_cases tm o t ts h)
      as [[_ ->]|[[_ ->]|(clock & stamp & _ & ->)]]; done. }
  assert (Hprio : ∀ t o tm ts tag clock,
            m_clocks h !! tag = Some clock →
            ∃ clock', m_clocks (update tm o t ts h).1.2 !! tag = Some clock'
                      ∧ priority clock' = priority clock).
  { intros t o tm ts tag clock Hc.
    destruct (update_cases tm o t ts h)
      as [[_ ->]|[[_ ->]|(clock0 & stamp & Hc0 & ->)]]; simpl;
      [by exists clock | by exists clock |].
    destruct (decide (t = tag)) as [->|Hne].
    - rewrite lookup_insert_eq. eexists. split; [done|]. simpl. congruence.
    - rewrite lookup_insert_ne by done. by exists clock. }
  split; [|split].
  - intros Hc. call_cases c;
      first [ done | apply setup_flag | apply Hflag ].
  - intros tag Hadj Htag. call_cases c; simpl in Htag;
      first [ done
            | apply setup_lookup_ne; congruence
            | apply update_lookup_ne; congruence
            | by rewrite manualOverride_clocks ].
  - intros tag clock Hset Hc. call_cases c;
      first [ done
            | by apply Hprio
            | rewrite manualOverride_clocks; by exists clock
            | by exists clock
            | idtac ].
    rewrite adjust_lookup, Hc. simpl. eexists. split; [done|].
    unfold adjust_clock. by destruct (decide _).
Qed.

Lemma calls_touch_only_what_they_name_witness :
  m_manualOverride (step 10 (CallUpdate 5 manual 100) h_override_on).1 = true
  ∧ m_clocks (step 10 (CallSetup micom 1 7) h_stamped).1 !! manual
    = Some {| priority := 0; systemOffset := 1; lastUpdate := 100 |}.
Proof.
  split.
  - apply (proj1 (calls_touch_only_what_they_name 10 (CallUpdate 5 manual 100)
                    h_override_on)). reflexivity.
  - apply (proj1 (proj2 (calls_touch_only_what_they_name 10
                           (CallSetup micom 1 7) h_stamped)) manual).
    + reflexivity.
    + discriminate.
Defined.

(** ** From "has data" back to "no data" *)

(** X12. A clock that has a stamp keeps having one through every call,
    provided the process time a call stamps with is not the value -1 that
    [time] returns on failure and a step of the time base does not move
    the stamp onto -1. *)
Theorem has_data_is_kept now c h tag :
  stamp_safe now c h tag →
  has_data h tag = true → has_data (step now c h).1 tag = true.
Proof.
  intros Hsafe Hdata.
  assert (Hclock : ∃ clock, m_clocks h !! tag = Some clock
                            ∧ lastUpdate clock ≠ invalidTime).
  { unfold has_data in Hdata. destruct (m_clocks h !! tag) as [clock|]; [|done].
    exists clock. split; [done|].
    by apply negb_true_iff, bool_decide_eq_false in Hdata. }
  destruct Hclock as (clock & Hc & Hv).
  assert (Hgoal : ∀ h', (∃ clock', m_clocks h' !! tag = Some clock'
                                   ∧ lastUpdate clock' ≠ invalidTime) →
                        has_data h' tag = true).
  { intros h' (clock' & Hc' & Hv'). unfold has_data. rewrite Hc'.
    by apply negb_true_iff, bool_decide_eq_false. }
  assert (Hupd : ∀ t o tm ts, tm ≠ invalidTime →
            ∃ clock', m_clocks (update tm o t ts h).1.2 !! tag = Some clock'
                      ∧ lastUpdate clock' ≠ invalidTime).
  { intros t o tm ts Htm. unfold update.
    destruct (m_clocks h !! t) as [clock0|] eqn:Hc0; [|by exists clock].
    simpl.
    assert (Hacc : ∀ stamp, stamp ≠ invalidTime →
              ∃ clock', m_clocks (accept_update o t stamp clock0 h).1.2 !! tag
                        = Some clock' ∧ lastUpdate clock' ≠ invalidTime).
    { intros stamp Hstamp. simpl. destruct (decide (t = tag)) as [->|Hne].
      - rewrite lookup_insert_eq. by eexists.
      - rewrite lookup_insert_ne by done. by exists clock. }
    destruct (decide (ts = invalidTime)); [by apply Hacc|].
    destruct (decide _); [by exists clock | by apply Hacc]. }
  apply Hgoal. call_cases c; cbn [stamp_safe] in Hsafe.
  - destruct (decide (tag = t)) as [->|Hne];
      [|rewrite setup_lookup_ne by done; by exists clock].
    destruct (decide (o = invalidOffset)) as [->|Ho].
    + rewrite (setup_lookup_keep _ _ _ _ clock Hc). by eexists.
    + rewrite (setup_lookup_overwrite _ _ _ _ _ clock Hc Ho). by eexists.
  - by apply Hupd.
  - rewrite adjust_lookup, Hc. simpl. eexists. split; [done|].
    unfold adjust_clock. destruct (decide _); [done|]. simpl.
    rewrite decide_True by done. by apply Hsafe.
  - rewrite manualOverride_clocks. by exists clock.
  - by apply Hupd.
  - by exists clock.
Qed.

Lemma has_data_is_kept_witness :
  has_data (step 500 (CallAdjust 3600) h_stamped).1 manual = true.
Proof.
  apply (has_data_is_kept 500 (CallAdjust 3600) h_stamped manual).
  - intros clock Hc. vm_compute in Hc. injection Hc as <-.
    vm_compute. discriminate.
  - reflexivity.
Defined.

(** ** The invariant of Clock along call sequences *)

Lemma run_keeps_invariant calls : ∀ h,
  offsets_safe calls h → registry_invariant h →
  registry_invariant (run calls h).
Proof.
  induction calls as [|[now c] calls IH]; intros h Hsafe Hinv; simpl; [done|].
  destruct Hsafe as [Hc Hrest]. by apply IH, step_keeps_invariant.
Qed.

(** X20. Away from the unset values the invariant of Clock holds and the
    [assert] never fails. After any sequence of calls from construction in
    which no update or [setTime] passes [invalidOffset] as the offset and
    no step of the time base moves a valid offset onto it, every clock
    with a stamp has an offset, and every [assert] met by a following
    [manualOverride] holds. *)
Theorem invariant_holds_away_from_sentinels calls enabled :
  offsets_safe calls ClockHandler_new →
  registry_invariant (run calls ClockHandler_new)
  ∧ (∀ tag clock, m_clocks (run calls ClockHandler_new) !! tag = Some clock →
       lastUpdate clock ≠ invalidTime → systemOffset clock ≠ invalidOffset)
  ∧ manualOverride_asserts enabled (run calls ClockHandler_new) = true.
Proof.
  intros Hsafe.
  assert (Hinv : registry_invariant (run calls ClockHandler_new)).
  { apply run_keeps_invariant; [done | apply ClockHandler_new_invariant]. }
  split; [done|]. split.
  - intros tag clock Hc. apply Clock_invariant_true. by apply (Hinv tag).
  - by apply manualOverride_asserts_of_invariant.
Qed.

Lemma invariant_holds_away_from_sentinels_witness :
  manualOverride_asserts false
    (run [(10, CallSetup micom 1 7); (20, CallUpdate 5 manual 100);
          (30, CallManualOverride true)] ClockHandler_new)
  = true.
Proof.
  apply (invariant_holds_away_from_sentinels
           [(10, CallSetup micom 1 7); (20, CallUpdate 5 manual 100);
            (30, CallManualOverride true)] false).
  simpl. repeat split. discriminate.
Defined.

(** * BackupManager: paths *)

Lemma string_app_cons x (a b : string) : String x a +:+ b = String x (a +:+ b).
Proof. reflexivity. Qed.

Lemma string_app_nil_l (b : string) : "" +:+ b = b.
Proof. reflexivity. Qed.

Lemma string_app_assoc (a b c : string) : (a +:+ b) +:+ c = a +:+ b +:+ c.
Proof.
  induction a as [|x a IH]; [done|].
  rewrite !string_app_cons. by f_equal.
Qed.

Lemma prefix_app (a b : string) : String.prefix a (a +:+ b) = true.
Proof.
  induction a as [|x a IH]; [by destruct b|].
  rewrite string_app_cons. simpl. by destruct (Ascii.ascii_dec x x).
Qed.

Lemma contains_unfold needle hay :
  contains needle hay
  = String.prefix needle hay
    || match hay with
       | EmptyString => false
       | String _ rest => contains needle rest
       end.
Proof. by destruct hay. Qed.

Lemma contains_prefix needle hay :
  String.prefix needle hay = true → contains needle hay = true.
Proof. intros Hp. by rewrite contains_unfold, Hp. Qed.

Lemma contains_app_r needle a b :
  contains needle b = true → contains needle (a +:+ b) = true.
Proof.
  induction a as [|x a IH]; [done|].
  intros Hb. rewrite string_app_cons, contains_unfold, (IH Hb).
  apply orb_true_r.
Qed.

Lemma contains_infix needle a b : contains needle (a +:+ needle +:+ b) = true.
Proof. apply contains_app_r, contains_prefix, prefix_app. Qed.

Lemma last_char_slash s :
  last_char s = Some "/"%char → ∃ dir, s = dir +:+ "/".
Proof.
  induction s as [|x s IH]; simpl; [done|].
  destruct s as [|y s].
  - intros [= ->]. by exists "".
  - intros Hl. destruct (IH Hl) as [dir ->]. by exists (String x dir).
Qed.

Lemma first_char_app a b :
  a ≠ "" → first_char (a +:+ b) = first_char a.
Proof. by destruct a. Qed.

Lemma absolute_app a b : a ≠ "" → absolute (a +:+ b) = absolute a.
Proof. intros Ha. unfold absolute. by rewrite first_char_app. Qed.

Lemma backup_dbfile_cases tempDir :
  (last_char tempDir = Some "/"%char
   ∧ backup_dbfile tempDir = tempDir +:+ s_tempBackupDbFilenameOnly)
  ∨ (last_char tempDir ≠ Some "/"%char
     ∧ backup_dbfile tempDir = tempDir +:+ "/" +:+ s_tempBackupDbFilenameOnly).
Proof.
  unfold backup_dbfile.
  destruct (decide (last_char tempDir = Some "/"%char)) as [Hs|Hs].
  - left. split; [done|].
    rewrite (bool_decide_eq_true_2 _ Hs).
    rewrite bool_decide_eq_false_2; [done|]. by intros ->.
  - right. split; [done|].
    rewrite (bool_decide_eq_false_2 _ Hs), orb_true_r.
    apply string_app_assoc.
Qed.

Lemma backup_dbfile_contains tempDir :
  contains "systemprefs_backup.db" (backup_dbfile tempDir) = true.
Proof.
  destruct (backup_dbfile_cases tempDir) as [[_ ->]|[_ ->]].
  - by apply contains_app_r.
  - by apply contains_app_r, contains_app_r.
Qed.

Lemma backup_dbfile_absolute tempDir :
  absolute tempDir = true ∨ tempDir = "" →
  absolute (backup_dbfile tempDir) = true.
Proof.
  destruct (backup_dbfile_cases tempDir) as [[Hs ->]|[Hs ->]].
  - intros [Ha| ->]; [|done].
    rewrite absolute_app; [done|]. by intros ->.
  - intros [Ha| ->]; [|done].
    rewrite absolute_app; [done|]. by intros ->.
Qed.

(** X13. The temporary backup database is created inside [tempDir]: when
    [tempDir] ends in "/" the path is [tempDir] followed by the file name
    "systemprefs_backup.db", and otherwise (also when [tempDir] is empty)
    it is [tempDir], one "/" and the file name; so the directory and the
    name are always separated by the one "/" of [tempDir] or the one
    added. The path contains the name by which [postRestore] recognises
    the database, and it is absolute when [tempDir] is absolute or empty. *)
Theorem backup_dbfile_in_tempDir tempDir :
  (last_char tempDir = Some "/"%char →
   backup_dbfile tempDir = tempDir +:+ "systemprefs_backup.db")
  ∧ (last_char tempDir ≠ Some "/"%char →
     backup_dbfile tempDir = tempDir +:+ "/" +:+ "systemprefs_backup.db")
  ∧ (∃ dir, backup_dbfile tempDir = dir +:+ "/" +:+ "systemprefs_backup.db"
            ∧ (tempDir = dir +:+ "/"
               ∨ (tempDir = dir ∧ last_char tempDir ≠ Some "/"%char)))
  ∧ backup_dbfile "" = "/systemprefs_backup.db"
  ∧ contains "systemprefs_backup.db" (backup_dbfile tempDir) = true
  ∧ (absolute tempDir = true ∨ tempDir = "" →
     absolute (backup_dbfile tempDir) = true).
Proof.
  split; [|split; [|split; [|split; [|split]]]].
  - intros Hs. by destruct (backup_dbfile_cases tempDir) as [[_ ->]|[Hs' _]].
  - intros Hs. by destruct (backup_dbfile_cases tempDir) as [[Hs' _]|[_ ->]].
  - destruct (backup_dbfile_cases tempDir) as [[Hs ->]|[Hs ->]].
    + destruct (last_char_slash tempDir Hs) as [dir ->].
      exists dir. split; [apply string_app_assoc | by left].
    + exists tempDir. split; [done | by right].
  - reflexivity.
  - apply backup_dbfile_contains.
  - apply backup_dbfile_absolute.
Qed.

Lemma backup_dbfile_in_tempDir_witness :
  backup_dbfile "/tmp/backup/" = "/tmp/backup/" +:+ "systemprefs_backup.db"
  ∧ backup_dbfile "/tmp/backup"
    = "/tmp/backup" +:+ "/" +:+ "systemprefs_backup.db"
  ∧ absolute (backup_dbfile "/tmp/backup") = true.
Proof.
  split; [|split].
  - apply (proj1 (backup_dbfile_in_tempDir "/tmp/backup/")). reflexivity.
  - apply (proj1 (proj2 (backup_dbfile_in_tempDir "/tmp/backup"))).
    discriminate.
  - apply (proj2 (proj2 (proj2 (proj2 (proj2
             (backup_dbfile_in_tempDir "/tmp/backup")))))).
    left. reflexivity.
Defined.

Lemma restore_entry_absolute tempDir path :
  absolute path = true →
  contains "systemprefs_backup.db" path = true →
  restore_entry tempDir (Some path) = Some path.
Proof.
  intros Ha Hc. unfold restore_entry.
  rewrite bool_decide_eq_false_2 by (intros ->; done).
  unfold absolute in Ha. rewrite Ha. simpl. by rewrite Hc.
Qed.

Lemma restore_entry_relative tempDir path :
  path ≠ "" → absolute path = false →
  contains "systemprefs_backup.db" (tempDir +:+ "/" +:+ path) = true →
  restore_entry tempDir (Some path) = Some (tempDir +:+ "/" +:+ path).
Proof.
  intros Hne Ha Hc. unfold restore_entry.
  rewrite bool_decide_eq_false_2 by done.
  unfold absolute in Ha. rewrite Ha. simpl. by rewrite Hc.
Qed.

Lemma postRestore_merged_one tempDir entry :
  postRestore_merged tempDir [entry]
  = match restore_entry tempDir entry with
    | Some path => [path]
    | None => []
    end.
Proof. reflexivity. Qed.

(** X14. [postRestore] finds the database [preBackup] wrote. Given the
    path of the temporary database of an absolute or empty [tempDir], it
    merges from exactly that path, whatever its own [tempDir]. Given the
    bare file name, it merges from [tempDir], "/" and the name, which is
    the path [preBackup] wrote to when [tempDir] does not end in "/" and
    is a different string, with a doubled "/", when it does. *)
Theorem postRestore_finds_backup_dbfile :
  (∀ tempDir tempDir',
     absolute tempDir = true ∨ tempDir = "" →
     postRestore_merged tempDir' [Some (backup_dbfile tempDir)]
     = [backup_dbfile tempDir])
  ∧ (∀ tempDir,
     postRestore_merged tempDir [Some s_tempBackupDbFilenameOnly]
     = [tempDir +:+ "/" +:+ s_tempBackupDbFilenameOnly])
  ∧ (∀ tempDir,
     last_char tempDir ≠ Some "/"%char →
     postRestore_merged tempDir [Some s_tempBackupDbFilenameOnly]
     = [backup_dbfile tempDir])
  ∧ (∀ tempDir,
     last_char tempDir = Some "/"%char →
     postRestore_merged tempDir [Some s_tempBackupDbFilenameOnly]
     ≠ [backup_dbfile tempDir]).
Proof.
  assert (Hname : ∀ tempDir,
            postRestore_merged tempDir [Some s_tempBackupDbFilenameOnly]
            = [tempDir +:+ "/" +:+ s_tempBackupDbFilenameOnly]).
  { intros tempDir. rewrite postRestore_merged_one.
    rewrite restore_entry_relative; [done | done | done |].
    by apply contains_app_r. }
  split; [|split; [exact Hname|split]].
  - intros tempDir tempDir' Habs. rewrite postRestore_merged_one.
    rewrite restore_entry_absolute;
      auto using backup_dbfile_contains, backup_dbfile_absolute.
  - intros tempDir Hs. rewrite Hname.
    by destruct (backup_dbfile_cases tempDir) as [[Hs' _]|[_ ->]].
  - intros tempDir Hs. rewrite Hname.
    destruct (backup_dbfile_cases tempDir) as [[_ ->]|[Hs' _]]; [|done].
    intros [= Heq]. by apply (inj (String.app tempDir)) in Heq.
Qed.

Lemma postRestore_finds_backup_dbfile_witness :
  postRestore_merged "/elsewhere" [Some (backup_dbfile "/tmp/backup")]
  = [backup_dbfile "/tmp/backup"]
  ∧ postRestore_merged "/tmp/backup" [Some s_tempBackupDbFilenameOnly]
    = [backup_dbfile "/tmp/backup"]
  ∧ postRestore_merged "/tmp/backup/" [Some s_tempBackupDbFilenameOnly]
    ≠ [backup_dbfile "/tmp/backup/"].
Proof.
  destruct postRestore_finds_backup_dbfile as (Hpath & _ & Hname & Hslash).
  split; [|split].
  - apply (Hpath "/tmp/backup" "/elsewhere"). left. reflexivity.
  - apply (Hname "/tmp/backup"). discriminate.
  - apply (Hslash "/tmp/backup/"). reflexivity.
Defined.

(** X15. What [postRestore] merges. Every path handed to [merge] comes
    from an element of "files" that is a non-empty string, contains
    "systemprefs_backup.db", and is that string itself when it begins with
    "/" and [tempDir], "/" and that string otherwise; elements without
    object, empty strings and paths without the name are passed over. When
    [tempDir] is absolute or empty every merged path is absolute. *)
Theorem postRestore_merged_paths tempDir files :
  (∀ path, path ∈ postRestore_merged tempDir files
     ↔ ∃ entry, Some entry ∈ files ∧ entry ≠ ""
         ∧ path = (if absolute entry then entry
                   else tempDir +:+ "/" +:+ entry)
         ∧ contains "systemprefs_backup.db" path = true)
  ∧ (absolute tempDir = true ∨ tempDir = "" →
     ∀ path, path ∈ postRestore_merged tempDir files → absolute path = true).
Proof.
  assert (Hchar : ∀ path, path ∈ postRestore_merged tempDir files
     ↔ ∃ entry, Some entry ∈ files ∧ entry ≠ ""
         ∧ path = (if absolute entry then entry
                   else tempDir +:+ "/" +:+ entry)
         ∧ contains "systemprefs_backup.db" path = true).
  { intros path. unfold postRestore_merged. rewrite list_elem_of_omap. split.
    - intros ([entry|] & Hin & Hentry); [|done].
      unfold restore_entry in Hentry.
      case_bool_decide as Hne; [done|].
      exists entry. split; [done|]. split; [done|].
      unfold absolute.
      destruct (bool_decide (first_char entry = Some "/"%char)); simpl in *;
        destruct (contains _ _) eqn:Hc; by simplify_eq.
    - intros (entry & Hin & Hne & -> & Hc).
      exists (Some entry). split; [done|].
      destruct (absolute entry) eqn:Ha.
      + by apply restore_entry_absolute.
      + by apply restore_entry_relative. }
  split; [exact Hchar|].
  intros Habs path (entry & _ & Hne & -> & _)%Hchar.
  destruct (absolute entry) eqn:Ha; [done|].
  destruct Habs as [Habs| ->]; [|done].
  rewrite absolute_app; [done|]. intros ->. done.
Qed.

Lemma postRestore_merged_paths_witness :
  absolute "/tmp/x/systemprefs_backup.db" = true.
Proof.
  apply (proj2 (postRestore_merged_paths "/tmp/x"
                  [Some "systemprefs_backup.db"; None; Some "";
                   Some "/a/systemprefs_backup.db"; Some "other.db"])
           (or_introl eq_refl) "/tmp/x/systemprefs_backup.db").
  vm_compute. left.
Defined.

(** * PrefsDb: copyKeys *)

Section PrefsDbFacts.
Context {Db : Type}.
Variable insert_row : Db → string → string → option Db.
Variable select_value : Db → string → option string.

Local Notation "'setPref_'" := (setPref insert_row).
Local Notation "'getPref_value_'" := (getPref_value select_value).
Local Notation "'round_'" := (copyKeys_round insert_row select_value).
Local Notation "'copyKeys_'" := (copyKeys insert_row select_value).
Local Notation "'stored_'" := (stored select_value).
Local Notation "'copied_from_'" := (copied_from select_value).

Lemma c_str_idemp s : c_str (c_str s) = c_str s.
Proof.
  induction s as [|c s IH]; simpl; [done|].
  case_bool_decide as Hc; simpl; [done|].
  rewrite bool_decide_eq_false_2 by done. by f_equal.
Qed.

Lemma getPref_value_stored key (this : PrefsDb Db) :
  key ≠ "" → getPref_value_ key this = c_str <$> stored_ this (c_str key).
Proof.
  intros Hkey. unfold getPref_value, stored.
  destruct (m_prefsDb this) as [db|]; [|done].
  by rewrite bool_decide_eq_false_2.
Qed.

Lemma getPref_value_Some key (this : PrefsDb Db) val :
  getPref_value_ key this = Some val
  ↔ key ≠ "" ∧ ∃ raw, stored_ this (c_str key) = Some raw ∧ val = c_str raw.
Proof.
  unfold getPref_value, stored. destruct (m_prefsDb this) as [db|].
  - case_bool_decide as Hkey.
    + split; [done | by intros [? _]].
    + destruct (select_value db (c_str key)) as [raw|]; simpl.
      * split.
        -- intros [= <-]. split; [done | by exists raw].
        -- by intros [_ (raw' & [= <-] & ->)].
      * split; [done | by intros [_ (raw' & [=] & _)]].
  - split; [done | by intros [_ (raw' & [=] & _)]].
Qed.

Lemma getPref_value_None key (this : PrefsDb Db) :
  getPref_value_ key this = None
  ↔ key = "" ∨ stored_ this (c_str key) = None.
Proof.
  unfold getPref_value, stored. destruct (m_prefsDb this) as [db|].
  - case_bool_decide as Hkey.
    + split; [by left | done].
    + destruct (select_value db (c_str key)) as [raw|]; simpl.
      * split; [done | by intros [?|?]].
      * split; [by right | done].
  - split; [by right | done].
Qed.

Lemma setPref_closed key value (this : PrefsDb Db) :
  m_prefsDb this = None → setPref_ key value this = (false, this).
Proof. intros Hc. unfold setPref. by rewrite Hc. Qed.

(** What [setPref] leaves in the table: on failure the object is
    unchanged, on success the connection holds the state after the insert. *)
Lemma setPref_cases key value (this : PrefsDb Db) :
  setPref_ key value this = (false, this)
  ∨ ∃ db db', m_prefsDb this = Some db ∧ key ≠ ""
      ∧ insert_row db (c_str key) (c_str value) = Some db'
      ∧ setPref_ key value this
        = (true, {| m_prefsDb := Some db'; m_dbFilename := m_dbFilename this |}).
Proof.
  unfold setPref. destruct (m_prefsDb this) as [db|] eqn:Hdb; [|by left].
  case_bool_decide as Hkey; [by left|].
  destruct (insert_row db (c_str key) (c_str value)) as [db'|] eqn:Hins;
    [|by left].
  right. by exists db, db'.
Qed.

Lemma round_count source ow (acc : Z * PrefsDb Db) key :
  acc.1 <= (round_ source ow acc key).1 <= acc.1 + 1
  ∧ ((round_ source ow acc key).1 = acc.1 → (round_ source ow acc key).2 = acc.2)
  ∧ (m_prefsDb acc.2 = None → (round_ source ow acc key).2 = acc.2).
Proof.
  unfold copyKeys_round.
  destruct (getPref_value_ key source) as [val|]; [|split; [lia | done]].
  destruct (negb _ || ow); simpl; [|split; [lia | done]].
  split; [lia|]. split; [lia|].
  intros Hc. by rewrite setPref_closed.
Qed.

Lemma foldl_round_count source ow keys : ∀ acc : Z * PrefsDb Db,
  acc.1 <= (foldl (round_ source ow) acc keys).1
          <= acc.1 + Z.of_nat (List.length keys)
  ∧ ((foldl (round_ source ow) acc keys).1 = acc.1 →
     (foldl (round_ source ow) acc keys).2 = acc.2)
  ∧ (m_prefsDb acc.2 = None → (foldl (round_ source ow) acc keys).2 = acc.2).
Proof.
  induction keys as [|key keys IH]; intros acc; simpl; [split; [lia | done]|].
  destruct (IH (round_ source ow acc key)) as (Hn & Hsame & Hclosed).
  destruct (round_count source ow acc key) as (Hn1 & Hsame1 & Hclosed1).
  split; [lia|]. split.
  - intros Heq. rewrite Hsame by lia. apply Hsame1. lia.
  - intros Hc. rewrite Hclosed; [by apply Hclosed1|]. by rewrite Hclosed1.
Qed.

(** X16. The count [copyKeys] returns lies between 0 and the number of
    keys. It is 0, and the target is untouched, when the source is a null
    pointer, the target itself or a database that is not open, or when
    there are no keys; and whenever the count is 0 the target is as it
    was. A target that is not open is left as it is whatever the count. *)
Theorem copyKeys_count p_sourceDb keys ow (this : PrefsDb Db) :
  0 <= (copyKeys_ p_sourceDb keys ow this).1 <= Z.of_nat (List.length keys)
  ∧ (p_sourceDb = NullDb ∨ p_sourceDb = ThisDb ∨ keys = []
     ∨ (∃ source, p_sourceDb = OtherDb source ∧ m_prefsDb source = None) →
     copyKeys_ p_sourceDb keys ow this = (0, this))
  ∧ ((copyKeys_ p_sourceDb keys ow this).1 = 0 →
     (copyKeys_ p_sourceDb keys ow this).2 = this)
  ∧ (m_prefsDb this = None → (copyKeys_ p_sourceDb keys ow this).2 = this).
Proof.
  assert (Hlen : 0 <= Z.of_nat (List.length keys)) by lia.
  unfold copyKeys. split; [|split; [|split]].
  - destruct p_sourceDb as [| |source]; simpl; [lia | lia |].
    case_bool_decide; simpl; [lia|].
    destruct (m_prefsDb source); simpl; [|lia].
    apply (foldl_round_count source ow keys (0, this)).
  - intros [->|[->|[->|(source & -> & Hc)]]]; [done | done | |].
    + by destruct p_sourceDb.
    + rewrite Hc. by case_bool_decide.
  - destruct p_sourceDb as [| |source]; simpl; [done | done |].
    case_bool_decide; simpl; [done|].
    destruct (m_prefsDb source); simpl; [|done].
    apply (foldl_round_count source ow keys (0, this)).
  - destruct p_sourceDb as [| |source]; simpl; [done | done |].
    case_bool_decide; simpl; [done|].
    destruct (m_prefsDb source); simpl; [|done].
    apply (foldl_round_count source ow keys (0, this)).
Qed.

(** The table behaves as one with a unique key whose conflicts replace:
    after an insert the key has the value inserted, and the other keys
    have what they had. *)
Hypothesis select_inserted :
  ∀ db db' k v, insert_row db k v = Some db' → select_value db' k = Some v.
Hypothesis select_other :
  ∀ db db' k v k', insert_row db k v = Some db' → k' ≠ k →
    select_value db' k' = select_value db k'.

Lemma round_values source keys ow (acc : Z * PrefsDb Db) key k :
  key ∈ keys →
  stored_ (round_ source ow acc key).2 k = stored_ acc.2 k
  ∨ copied_from_ source keys k (stored_ (round_ source ow acc key).2 k).
Proof.
  intros Hin. unfold copyKeys_round.
  destruct (getPref_value_ key source) as [val|] eqn:Hsrc; [|by left].
  apply getPref_value_Some in Hsrc as [Hkey (raw & Hraw & ->)].
  destruct (negb _ || ow); [|by left]. simpl.
  destruct (setPref_cases key (c_str raw) acc.2)
    as [->|(db & db' & Hdb & _ & Hins & ->)]; [by left|].
  rewrite c_str_idemp in Hins.
  destruct (decide (k = c_str key)) as [->|Hne].
  - right. exists key, raw. repeat split; try done.
    unfold stored. simpl. by apply (select_inserted db).
  - left. unfold stored. simpl. rewrite Hdb.
    by apply (select_other db db' (c_str key) (c_str raw)).
Qed.

Lemma foldl_round_values source keys ow ks : ∀ (acc : Z * PrefsDb Db) k,
  (∀ key, key ∈ ks → key ∈ keys) →
  stored_ (foldl (round_ source ow) acc ks).2 k = stored_ acc.2 k
  ∨ copied_from_ source keys k (stored_ (foldl (round_ source ow) acc ks).2 k).
Proof.
  induction ks as [|key ks IH]; intros acc k Hsub; simpl; [by left|].
  destruct (IH (round_ source ow acc key) k) as [Heq|Hcopied];
    [set_solver | | by right].
  rewrite Heq. apply round_values. set_solver.
Qed.

Lemma round_keeps source (acc : Z * PrefsDb Db) key k v :
  stored_ acc.2 k = Some v →
  stored_ (round_ source false acc key).2 k = Some v.
Proof.
  intros Hk. unfold copyKeys_round.
  destruct (getPref_value_ key source) as [val|] eqn:Hsrc; [|done].
  apply getPref_value_Some in Hsrc as [Hkey _].
  rewrite orb_false_r.
  destruct (getPref_value_ key acc.2) as [mine|] eqn:Hmine.
  { by rewrite bool_decide_eq_true_2 by (by eexists). }
  rewrite bool_decide_eq_false_2 by (by intros [? ?]). simpl.
  apply getPref_value_None in Hmine as [->|Hmine]; [done|].
  destruct (setPref_cases key val acc.2)
    as [->|(db & db' & Hdb & _ & Hins & ->)]; [done|].
  unfold stored in *. simpl. rewrite Hdb in Hk, Hmine.
  rewrite (select_other db db' (c_str key) (c_str val)); [done | done |].
  intros ->. by rewrite Hk in Hmine.
Qed.

Lemma foldl_round_keeps source ks : ∀ (acc : Z * PrefsDb Db) k v,
  stored_ acc.2 k = Some v →
  stored_ (foldl (round_ source false) acc ks).2 k = Some v.
Proof.
  induction ks as [|key ks IH]; intros acc k v Hk; simpl; [done|].
  by apply IH, round_keeps.
Qed.

(** X17. [copyKeys] writes nothing of its own. On a table with a unique,
    replacing key, every key of the target afterwards has either the value
    it had or the value the source holds for it, the key being one of the
    keys listed; and with [overwriteSameKeys] false a key the target held
    keeps its value. *)
Theorem copyKeys_values source keys ow (this : PrefsDb Db) :
  (∀ k,
     stored_ (copyKeys_ (OtherDb source) keys ow this).2 k = stored_ this k
     ∨ copied_from_ source keys k
         (stored_ (copyKeys_ (OtherDb source) keys ow this).2 k))
  ∧ (ow = false → ∀ k v,
     stored_ this k = Some v →
     stored_ (copyKeys_ (OtherDb source) keys ow this).2 k = Some v).
Proof.
  unfold copyKeys. split.
  - intros k. case_bool_decide; [by left|].
    destruct (m_prefsDb source); [|by left].
    by apply (foldl_round_values source keys ow keys (0, this) k).
  - intros -> k v Hk. case_bool_decide; [done|].
    destruct (m_prefsDb source); [|done].
    by apply (foldl_round_keeps source keys (0, this)).
Qed.

(** X19. What is set is what is got. On a table with a unique, replacing
    key: when [setPref] returns [true], both [getPref] then give the value
    set, as the C functions read it, and the keys that are other keys for
    the C functions give what they gave; when it returns [false] the
    object is unchanged, and it does so exactly when the database is not
    open, the key is empty or the insert fails. *)
Theorem setPref_then_getPref key value (this : PrefsDb Db) :
  ((setPref_ key value this).1 = true →
   getPref_value_ key (setPref_ key value this).2 = Some (c_str value)
   ∧ getPref select_value key (setPref_ key value this).2 = c_str value
   ∧ (∀ key', c_str key' ≠ c_str key →
      getPref_value_ key' (setPref_ key value this).2
      = getPref_value_ key' this))
  ∧ ((setPref_ key value this).1 = false → (setPref_ key value this).2 = this)
  ∧ ((setPref_ key value this).1 = false
     ↔ m_prefsDb this = None ∨ key = ""
       ∨ ∃ db, m_prefsDb this = Some db
               ∧ insert_row db (c_str key) (c_str value) = None).
Proof.
  unfold setPref. destruct (m_prefsDb this) as [db|] eqn:Hdb.
  - case_bool_decide as Hkey.
    { split; [done|]. split; [done|]. split; [by right; left | done]. }
    destruct (insert_row db (c_str key) (c_str value)) as [db'|] eqn:Hins.
    + simpl. split; [|split; [done|]].
      * intros _. unfold getPref_value, getPref. simpl.
        rewrite bool_decide_eq_false_2 by done.
        rewrite (select_inserted db db' _ _ Hins). simpl.
        rewrite c_str_idemp. split; [done|].
        split; [done|]. intros key' Hne. rewrite Hdb.
        case_bool_decide; [done|].
        by rewrite (select_other db db' (c_str key) (c_str value)).
      * split; [done|].
        intros [?|[?|(db0 & [= <-] & Hnone)]]; [done | done |].
        by rewrite Hins in Hnone.
    + simpl. split; [done|]. split; [done|]. split; [|done].
      intros _. right. right. by exists db.
  - split; [done|]. split; [done|]. split; [by left | done].
Qed.

Lemma round_open source ow (acc : Z * PrefsDb Db) key :
  is_Some (m_prefsDb acc.2) →
  is_Some (m_prefsDb (round_ source ow acc key).2).
Proof.
  intros Hopen. unfold copyKeys_round.
  destruct (getPref_value_ key source) as [val|]; [|done].
  destruct (negb _ || ow); [|done]. simpl.
  by destruct (setPref_cases key val acc.2)
    as [->|(db & db' & _ & _ & _ & ->)].
Qed.

(** A key that agrees with the source keeps agreeing with it. *)
Lemma round_agrees source ow (acc : Z * PrefsDb Db) key k val :
  stored_ source k = Some val →
  stored_ acc.2 k = Some (c_str val) →
  stored_ (round_ source ow acc key).2 k = Some (c_str val).
Proof.
  intros Hsrc Hk. unfold copyKeys_round.
  destruct (getPref_value_ key source) as [val'|] eqn:Hkey; [|done].
  apply getPref_value_Some in Hkey as [_ (raw & Hraw & ->)].
  destruct (negb _ || ow); [|done]. simpl.
  destruct (setPref_cases key (c_str raw) acc.2)
    as [->|(db & db' & Hdb & _ & Hins & ->)]; [done|].
  rewrite c_str_idemp in Hins.
  unfold stored in *. simpl. rewrite Hdb in Hk.
  destruct (decide (k = c_str key)) as [->|Hne].
  - rewrite Hsrc in Hraw. injection Hraw as <-.
    by apply (select_inserted db).
  - by rewrite (select_other db db' (c_str key) (c_str raw)).
Qed.

Lemma round_holds source ow (acc : Z * PrefsDb Db) key k :
  is_Some (stored_ acc.2 k) →
  is_Some (stored_ (round_ source ow acc key).2 k).
Proof.
  intros Hk. unfold copyKeys_round.
  destruct (getPref_value_ key source) as [val'|]; [|done].
  destruct (negb _ || ow); [|done]. simpl.
  destruct (setPref_cases key val' acc.2)
    as [->|(db & db' & Hdb & _ & Hins & ->)]; [done|].
  unfold stored in *. simpl. rewrite Hdb in Hk.
  destruct (decide (k = c_str key)) as [->|Hne].
  - rewrite (select_inserted db db' _ _ Hins). by eexists.
  - by rewrite (select_other db db' (c_str key) (c_str val')).
Qed.

Lemma foldl_round_agrees source ow ks : ∀ (acc : Z * PrefsDb Db) k val,
  stored_ source k = Some val →
  stored_ acc.2 k = Some (c_str val) →
  stored_ (foldl (round_ source ow) acc ks).2 k = Some (c_str val).
Proof.
  induction ks as [|key ks IH]; intros acc k val Hsrc Hk; simpl; [done|].
  by apply IH, round_agrees.
Qed.

Lemma foldl_round_holds source ow ks : ∀ (acc : Z * PrefsDb Db) k,
  is_Some (stored_ acc.2 k) →
  is_Some (stored_ (foldl (round_ source ow) acc ks).2 k).
Proof.
  induction ks as [|key ks IH]; intros acc k Hk; simpl; [done|].
  by apply IH, round_holds.
Qed.

(** The round of a key the source holds, when inserts succeed. *)
Lemma round_copies source ow (acc : Z * PrefsDb Db) key val :
  (∀ db k v, is_Some (insert_row db k v)) →
  is_Some (m_prefsDb acc.2) →
  key ≠ "" → stored_ source (c_str key) = Some val →
  (ow = true →
   stored_ (round_ source ow acc key).2 (c_str key) = Some (c_str val))
  ∧ is_Some (stored_ (round_ source ow acc key).2 (c_str key)).
Proof.
  intros Htotal [db Hdb] Hkey Hsrc. unfold copyKeys_round.
  rewrite (getPref_value_stored key source Hkey), Hsrc. simpl.
  assert (Hset : stored_ (setPref_ key (c_str val) acc.2).2 (c_str key)
                 = Some (c_str val)).
  { destruct (setPref_cases key (c_str val) acc.2)
      as [Hfail|(db0 & db' & Hdb0 & _ & Hins & ->)].
    - exfalso. unfold setPref in Hfail. rewrite Hdb in Hfail.
      rewrite bool_decide_eq_false_2 in Hfail by done.
      destruct (Htotal db (c_str key) (c_str (c_str val))) as [db' Hins].
      by rewrite Hins in Hfail.
    - rewrite c_str_idemp in Hins.
      unfold stored. simpl. by apply (select_inserted db0). }
  destruct (getPref_value_ key acc.2) as [mine|] eqn:Hmine.
  - rewrite bool_decide_eq_true_2 by (by eexists). simpl.
    apply getPref_value_Some in Hmine as [_ (raw & Hmine & _)].
    destruct ow; simpl.
    + rewrite Hset. split; [done | by eexists].
    + split; [done | by eexists].
  - rewrite bool_decide_eq_false_2 by (by intros [? ?]). simpl.
    rewrite Hset. split; [done | by eexists].
Qed.

Lemma foldl_round_copies source ow ks : ∀ (acc : Z * PrefsDb Db) key val,
  (∀ db k v, is_Some (insert_row db k v)) →
  is_Some (m_prefsDb acc.2) →
  key ∈ ks → key ≠ "" → stored_ source (c_str key) = Some val →
  (ow = true →
   stored_ (foldl (round_ source ow) acc ks).2 (c_str key) = Some (c_str val))
  ∧ is_Some (stored_ (foldl (round_ source ow) acc ks).2 (c_str key)).
Proof.
  induction ks as [|key' ks IH]; intros acc key val Htotal Hopen Hin Hkey Hsrc;
    simpl; [by apply elem_of_nil in Hin|].
  destruct (decide (key ∈ ks)) as [Hks|Hks].
  - apply IH; [done | by apply round_open | done | done | done].
  - apply elem_of_cons in Hin as [->|Hin]; [|done].
    destruct (round_copies source ow acc key' val) as [Hval Hsome]; try done.
    split.
    + intros How. by apply foldl_round_agrees; [|apply Hval].
    + by apply foldl_round_holds.
Qed.

(** X18. [copyKeys] reaches every key listed. On a table with a unique,
    replacing key, when the two databases are open and no insert fails,
    every listed key that the source holds is held by the target
    afterwards, and with [overwriteSameKeys] true it has the value of the
    source. *)
Theorem copyKeys_copies_listed source keys ow (this : PrefsDb Db) key val :
  (∀ db k v, is_Some (insert_row db k v)) →
  is_Some (m_prefsDb this) →
  is_Some (m_prefsDb source) →
  key ∈ keys → key ≠ "" →
  stored_ source (c_str key) = Some val →
  (ow = true →
   stored_ (copyKeys_ (OtherDb source) keys ow this).2 (c_str key)
   = Some (c_str val))
  ∧ is_Some (stored_ (copyKeys_ (OtherDb source) keys ow this).2 (c_str key)).
Proof.
  intros Htotal Hopen [sdb Hsdb] Hin Hkey Hsrc. unfold copyKeys.
  rewrite bool_decide_eq_false_2 by (intros ->; by apply elem_of_nil in Hin).
  rewrite Hsdb.
  by apply (foldl_round_copies source ow keys (0, this) key val).
Qed.
End PrefsDbFacts.

(** The table kept in memory has a unique, replacing key. *)
Lemma table_select_inserted (db db' : gmap string string) k v :
  table_insert db k v = Some db' → table_select db' k = Some v.
Proof. intros [= <-]. apply lookup_insert_eq. Qed.

Lemma table_select_other (db db' : gmap string string) k v k' :
  table_insert db k v = Some db' → k' ≠ k →
  table_select db' k' = table_select db k'.
Proof. intros [= <-] Hne. by apply lookup_insert_ne. Qed.

Lemma copyKeys_count_witness :
  copyKeys table_insert table_select NullDb ["locale"] true backup_db
  = (0, backup_db)
  ∧ copyKeys table_insert table_select (OtherDb main_db) [] true backup_db
    = (0, backup_db).
Proof.
  split.
  - apply (proj1 (proj2 (copyKeys_count table_insert table_select NullDb
                           ["locale"] true backup_db))). by left.
  - apply (proj1 (proj2 (copyKeys_count table_insert table_select
                           (OtherDb main_db) [] true backup_db))).
    right. right. by left.
Defined.

Lemma copyKeys_values_witness :
  stored table_select
    (copyKeys table_insert table_select (OtherDb main_db)
       ["locale"; "databaseVersion"] false backup_db).2 "locale"
  = Some "fr_fr".
Proof.
  apply (proj2 (copyKeys_values table_insert table_select
                  table_select_inserted table_select_other main_db
                  ["locale"; "databaseVersion"] false backup_db)
           eq_refl "locale" "fr_fr").
  reflexivity.
Defined.

Lemma copyKeys_copies_listed_witness :
  stored table_select
    (copyKeys table_insert table_select (OtherDb main_db)
       ["locale"; "databaseVersion"] true backup_db).2 (c_str "locale")
  = Some (c_str "en_us").
Proof.
  apply (proj1 (copyKeys_copies_listed table_insert table_select
                  table_select_inserted table_select_other main_db
                  ["locale"; "databaseVersion"] true backup_db
                  "locale" "en_us"
                  (λ db k v, ex_intro _ (<[k := v]> db) eq_refl)
                  (ex_intro _ _ eq_refl) (ex_intro _ _ eq_refl)
                  ltac:(by left) ltac:(discriminate) eq_refl)).
  reflexivity.
Defined.

Lemma setPref_then_getPref_witness :
  getPref table_select "locale"
    (setPref table_insert "locale" "de_de" backup_db).2
  = c_str "de_de".
Proof.
  apply (proj1 (setPref_then_getPref table_insert table_select
                  table_select_inserted table_select_other
                  "locale" "de_de" backup_db)).
  reflexivity.
Defined.
